(** * render-template: a shallow embedding of [scripts/render-template.py]

    The script parses [sys.argv] into an input path, an output path and a
    dictionary of replacements, resolves [@file] values, applies
    [str.replace] once per dictionary item and writes the result.

    Python strings are modelled as lists of characters, the dictionary as
    an association list in insertion order, and the effects of [main]
    (reading and writing files, printing to [sys.stderr], [sys.exit] and
    uncaught exceptions) by a state-and-error monad over a [World]. *)

From Stdlib Require Import String Ascii List Arith Lia Bool ZArith Permutation.
Import ListNotations.

(** ** Strings

    A character is an 8-bit code.  Codes below 128 are the ASCII
    characters; a code from 128 on stands for a byte that does not decode,
    which Python keeps in [sys.argv] as a lone surrogate.  Texts are taken
    without carriage returns, so that the newline translation of text
    files is the identity. *)

Definition str := list ascii.

(** A Python string literal. *)
Definition lit (s : string) : str := list_ascii_of_string s.

Definition lbrace : ascii := "{"%char.
Definition rbrace : ascii := "}"%char.
Definition nl : ascii := "010"%char.
Definition eqc : ascii := "="%char.

(** Whether a text can be encoded for a file, and a file's contents
    decoded: it holds no undecodable byte. *)
Definition encodable_char (c : ascii) : bool :=
  match c with
  | Ascii _ _ _ _ _ _ _ high => negb high
  end.

Definition encodable (s : str) : bool := forallb encodable_char s.

Fixpoint str_eqb (a b : str) : bool :=
  match a, b with
  | [], [] => true
  | x :: a', y :: b' => Ascii.eqb x y && str_eqb a' b'
  | _, _ => false
  end.

(** [s.startswith(prefix)] *)
Fixpoint str_startswith (s prefix : str) {struct prefix} : bool :=
  match prefix, s with
  | [], _ => true
  | p :: prefix', c :: s' => Ascii.eqb c p && str_startswith s' prefix'
  | _ :: _, [] => false
  end.

(** [s.partition(sep)] for a non-empty [sep]: the part before the first
    occurrence of [sep], [sep] itself and the part after it; [(s, "", "")]
    when [sep] does not occur.  (Python raises [ValueError] on an empty
    separator; the script only passes ["="].) *)
Fixpoint str_partition (s sep : str) : str * str * str :=
  match s with
  | [] => ([], [], [])
  | c :: s' =>
      if str_startswith s sep then ([], sep, skipn (length sep) s)
      else let '(before, found, after) := str_partition s' sep in
           (c :: before, found, after)
  end.

(** [s.rstrip(chars)]: drop every trailing character that is in [chars]. *)
Fixpoint str_rstrip (s chars : str) : str :=
  match s with
  | [] => []
  | c :: s' =>
      match str_rstrip s' chars with
      | [] => if existsb (Ascii.eqb c) chars then [] else [c]
      | r => c :: r
      end
  end.

(** The scan of [s.replace(old, new)] for a non-empty [old]: at a position
    where [old] starts, emit [new] and jump over [old]; elsewhere copy one
    character.  The inserted [new] is never looked at again. *)
Fixpoint replace_scan (fuel : nat) (s old new : str) : str :=
  match fuel with
  | 0 => s
  | S fuel' =>
      if str_startswith s old
      then new ++ replace_scan fuel' (skipn (length old) s) old new
      else match s with
           | [] => []
           | c :: s' => c :: replace_scan fuel' s' old new
           end
  end.

(** [s.replace(old, new)].  An empty [old] matches before every character
    and at the end. *)
Definition str_replace (s old new : str) : str :=
  match old with
  | [] => new ++ flat_map (fun c => c :: new) s
  | _ :: _ => replace_scan (length s) s old new
  end.

(** [old in s] as a proposition and as a test. *)
Definition occurs (old s : str) : Prop :=
  exists pre post, s = pre ++ old ++ post.

Fixpoint str_contains (s old : str) : bool :=
  str_startswith s old ||
  match s with
  | [] => false
  | _ :: s' => str_contains s' old
  end.

(** ** The substitution loop of [main] *)

(** ["{{" + key + "}}"] *)
Definition placeholder (key : str) : str := lit "{{" ++ key ++ lit "}}".

(** [for key, value in replacements.items(): html = html.replace(...)] *)
Fixpoint substitute (items : list (str * str)) (html : str) : str :=
  match items with
  | [] => html
  | (key, value) :: rest =>
      substitute rest (str_replace html (placeholder key) value)
  end.

(** ** The dictionary [replacements]

    A Python [dict] keeps its keys in the order of their first insertion;
    assigning to a key that is present overwrites the value in place. *)

Definition dict := list (str * str).

(** [d[key] = value] *)
Fixpoint dict_set (d : dict) (key value : str) : dict :=
  match d with
  | [] => [(key, value)]
  | (k, v) :: d' =>
      if str_eqb k key then (k, value) :: d'
      else (k, v) :: dict_set d' key value
  end.

(** [d.get(key)] *)
Fixpoint dict_get (d : dict) (key : str) : option str :=
  match d with
  | [] => None
  | (k, v) :: d' => if str_eqb k key then Some v else dict_get d' key
  end.

(** [d.items()] *)
Definition dict_items (d : dict) : list (str * str) := d.

(** ** Effects

    A [World] holds what [main] can observe and change: what each path
    holds ([None] when it cannot be opened for reading), which paths can be
    opened for writing, what the script has printed to [sys.stderr], and
    the file operations it has attempted, oldest first.  Paths are compared
    as the strings given on the command line. *)

(** The exceptions of a run: [OSError path] for a failed read of [path]
    or a failed opening of it for writing, [UnicodeEncodeError] for data
    that cannot be encoded, [IndexError] for a missing [sys.argv[0]]. *)
Inductive exn : Type :=
| OSError (path : str)
| UnicodeEncodeError
| IndexError.

(** How a run stops early: [sys.exit(code)], or an exception nobody
    catches (the interpreter then prints a traceback and exits with 1). *)
Inductive halt : Type :=
| SysExit (code : Z)
| Uncaught (e : exn).

Inductive event : Type :=
| EvRead (path : str)
| EvWrite (path : str) (data : str).

Record World : Type := mkWorld {
  raw_files : str -> option str;
  writable : str -> bool;
  stderr : str;
  log : list event
}.

(** The text a path reads as: [None] when [read_text] raises, because the
    path cannot be opened or because what it holds does not decode. *)
Definition files (w : World) (path : str) : option str :=
  match raw_files w path with
  | Some text => if encodable text then Some text else None
  | None => None
  end.

Definition M (A : Type) : Type := World -> (A + halt) * World.

Definition ret {A} (a : A) : M A := fun w => (inl a, w).

Definition bind {A B} (m : M A) (k : A -> M B) : M B :=
  fun w =>
    match m w with
    | (inl a, w') => k a w'
    | (inr h, w') => (inr h, w')
    end.

Notation "x <- m ;; k" := (bind m (fun x => k))
  (at level 61, m at next level, right associativity).
Notation "m ;; k" := (bind m (fun _ => k))
  (at level 61, right associativity).

Definition when (b : bool) (m : M unit) : M unit :=
  if b then m else ret tt.

(** [print(msg, file=sys.stderr)] *)
Definition print_stderr (msg : str) : M unit :=
  fun w => (inl tt, mkWorld (raw_files w) (writable w) (stderr w ++ msg ++ [nl]) (log w)).

(** [sys.exit(code)] *)
Definition sys_exit {A} (code : Z) : M A :=
  fun w => (inr (SysExit code), w).

(** [pathlib.Path(path).read_text()] *)
Definition read_text (path : str) : M str :=
  fun w =>
    let w' := mkWorld (raw_files w) (writable w) (stderr w) (log w ++ [EvRead path]) in
    match files w path with
    | Some text => (inl text, w')
    | None => (inr (Uncaught (OSError path)), w')
    end.

(** [pathlib.Path(path).write_text(data)]: the path is opened with mode
    ['w'], which fails on a path that cannot be written and otherwise
    creates the file or empties it; then the data are encoded and written,
    which fails, with the file left empty, on data that cannot be
    encoded. *)
Definition write_text (path data : str) : M unit :=
  fun w =>
    let log' := log w ++ [EvWrite path data] in
    if writable w path
    then if encodable data
         then (inl tt,
               mkWorld (fun p => if str_eqb p path then Some data else files w p)
                       (writable w) (stderr w) log')
         else (inr (Uncaught UnicodeEncodeError),
               mkWorld (fun p => if str_eqb p path then Some [] else files w p)
                       (writable w) (stderr w) log')
    else (inr (Uncaught (OSError path)),
          mkWorld (raw_files w) (writable w) (stderr w) log').

(** [argv[i]] *)
Definition argv_get (argv : list str) (i : nat) : M str :=
  fun w =>
    match nth_error argv i with
    | Some a => (inl a, w)
    | None => (inr (Uncaught IndexError), w)
    end.

(** The exit status of the process. *)
Definition exit_status {A} (r : A + halt) : Z :=
  match r with
  | inl _ => 0%Z
  | inr (SysExit code) => code
  | inr (Uncaught _) => 1%Z
  end.

(** Python truthiness of a string: [not s] holds for the empty string. *)
Definition py_not (s : str) : bool :=
  match s with
  | [] => true
  | _ :: _ => false
  end.

Section Renderer.

(** [repr] of a string, the built-in behind [{arg!r}]. *)
Variable repr : str -> str.

(** [f"Usage: {sys.argv[0]} INPUT OUTPUT KEY=value ..."] *)
Definition usage_message (prog : str) : str :=
  lit "Usage: " ++ prog ++ lit " INPUT OUTPUT KEY=value ...".

(** [f"Invalid argument: {arg!r} (expected KEY=value)"] *)
Definition invalid_argument_message (arg : str) : str :=
  lit "Invalid argument: " ++ repr arg ++ lit " (expected KEY=value)".

(** Lines 51-52: a value that starts with [@] names a file. *)
Definition resolve_value (value : str) : M str :=
  if str_startswith value (lit "@")
  then text <- read_text (skipn 1 value) ;;
       ret (str_rstrip text [nl])
  else ret value.

(** Lines 43-53: the loop over [sys.argv[3:]]. *)
Fixpoint parse_args (args : list str) (replacements : dict) : M dict :=
  match args with
  | [] => ret replacements
  | arg :: rest =>
      let '(key, sep, value) := str_partition arg (lit "=") in
      when (py_not key || py_not sep)
           (print_stderr (invalid_argument_message arg) ;;
            sys_exit 1) ;;
      value <- resolve_value value ;;
      parse_args rest (dict_set replacements key value)
  end.

Definition main (argv : list str) : M unit :=
  when (length argv <? 3)
       (prog <- argv_get argv 0 ;;
        print_stderr (usage_message prog) ;;
        sys_exit 1) ;;
  input_path <- argv_get argv 1 ;;
  output_path <- argv_get argv 2 ;;
  replacements <- parse_args (skipn 3 argv) [] ;;
  html <- read_text input_path ;;
  let html := substitute (dict_items replacements) html in
  write_text output_path html.

End Renderer.

(** ** Vocabulary of the properties *)

(** A key or placeholder name without braces. *)
Definition brace_free (s : str) : bool :=
  forallb (fun c => negb (Ascii.eqb c lbrace) && negb (Ascii.eqb c rbrace)) s.

(** A value or a piece of text without an opening brace. *)
Definition no_open_brace (s : str) : bool :=
  forallb (fun c => negb (Ascii.eqb c lbrace)) s.

Definition keys_brace_free (items : list (str * str)) : bool :=
  forallb (fun kv => brace_free (fst kv)) items.

Definition values_no_open_brace (items : list (str * str)) : bool :=
  forallb (fun kv => no_open_brace (snd kv)) items.

(** Whether a text holds a token [{{...}}]: an opening pair of braces
    with a closing pair somewhere after it. *)
Fixpoint has_token (s : str) : bool :=
  match s with
  | [] => false
  | _ :: s' =>
      (str_startswith s (lit "{{") && str_contains (skipn 2 s) (lit "}}"))
      || has_token s'
  end.

(** A template seen as literal text interleaved with placeholders. *)
Inductive token : Type :=
| Lit (text : str)
| Ph (name : str).

Definition render_token (t : token) : str :=
  match t with
  | Lit text => text
  | Ph name => placeholder name
  end.

Definition render (ts : list token) : str := flat_map render_token ts.

Definition token_ok (t : token) : bool :=
  match t with
  | Lit text => no_open_brace text
  | Ph name => brace_free name
  end.

(** What one pass for [key] does to a token. *)
Definition fill (key value : str) (t : token) : token :=
  match t with
  | Lit text => Lit text
  | Ph name => if str_eqb name key then Lit value else Ph name
  end.

(** What the whole loop does to a token. *)
Definition fill_all (items : list (str * str)) (t : token) : token :=
  match t with
  | Lit text => Lit text
  | Ph name =>
      match dict_get items name with
      | Some value => Lit value
      | None => Ph name
      end
  end.

(** The key of a trailing argument, and whether the loop accepts it. *)
Definition arg_key (arg : str) : str := fst (fst (str_partition arg (lit "="))).
Definition arg_value (arg : str) : str := snd (str_partition arg (lit "=")).

Definition arg_ok (arg : str) : bool :=
  let '(key, sep, _) := str_partition arg (lit "=") in
  negb (py_not key || py_not sep).

(** An argument the loop rejects, in the words of the usage: no [=], or
    nothing before the first [=]. *)
Definition malformed (arg : str) : Prop :=
  ~ In eqc arg \/ exists value, arg = eqc :: value.

(** Every [@file] named by the given arguments can be read. *)
Definition value_files_readable (w : World) (args : list str) : bool :=
  forallb (fun arg =>
             if str_startswith (arg_value arg) (lit "@")
             then match files w (skipn 1 (arg_value arg)) with
                  | Some _ => true
                  | None => false
                  end
             else true) args.

(** The file reads of the loop over the given trailing arguments. *)
Definition arg_reads (args : list str) : list event :=
  flat_map (fun arg =>
              if str_startswith (arg_value arg) (lit "@")
              then [EvRead (skipn 1 (arg_value arg))]
              else []) args.

(** The world after more has been printed and more file operations have
    been attempted. *)
Definition advance (w : World) (printed : str) (events : list event) : World :=
  mkWorld (raw_files w) (writable w) (stderr w ++ printed) (log w ++ events).

(** A stand-in for [repr] on strings without quotes, backslashes or
    control characters, where it only adds the quotes. *)
Definition quote_repr (s : str) : str := lit "'" ++ s ++ lit "'".

(** How the loop over the trailing arguments can end. *)
Inductive parse_outcome (repr : str -> str) (args : list str) (w : World) :
    dict + halt -> World -> Prop :=
| ParseDone d :
    forallb arg_ok args = true ->
    parse_outcome repr args w (inl d) (advance w [] (arg_reads args))
| ParseInvalid pre arg post :
    args = pre ++ arg :: post ->
    forallb arg_ok pre = true ->
    arg_ok arg = false ->
    parse_outcome repr args w (inr (SysExit 1))
      (advance w (invalid_argument_message repr arg ++ [nl]) (arg_reads pre))
| ParseUnreadable pre arg post :
    args = pre ++ arg :: post ->
    forallb arg_ok (pre ++ [arg]) = true ->
    str_startswith (arg_value arg) (lit "@") = true ->
    files w (skipn 1 (arg_value arg)) = None ->
    parse_outcome repr args w
      (inr (Uncaught (OSError (skipn 1 (arg_value arg)))))
      (advance w [] (arg_reads (pre ++ [arg]))).

(** The keys of a list in the order of their first occurrence, skipping
    those already [seen]. *)
Fixpoint first_occurrences (seen keys : list str) : list str :=
  match keys with
  | [] => []
  | k :: keys' =>
      if existsb (fun x => str_eqb x k) seen
      then first_occurrences seen keys'
      else k :: first_occurrences (seen ++ [k]) keys'
  end.

(** A small world for examples: a few readable files, every path
    writable, nothing printed or done yet. *)
Definition sample_files (path : str) : option str :=
  if str_eqb path (lit "in.html") then Some (lit "Hello {{NAME}}")
  else if str_eqb path (lit "plain.txt") then Some (lit "no tokens here")
  else if str_eqb path (lit "two-newlines") then Some (lit "a" ++ [nl; nl])
  else if str_eqb path (lit "a.tmpl") then Some (lit "{{A}}")
  else if str_eqb path (lit "file") then Some (lit "line1" ++ nl :: lit "line2" ++ [nl])
  else None.

Definition sample_world : World :=
  mkWorld sample_files (fun _ => true) [] [].

(** The same files on a file system where no path can be written. *)
Definition read_only_world : World :=
  mkWorld sample_files (fun _ => false) [] [].

(** The reading of the spec for [@file] values: exactly one trailing
    newline is removed. *)
Fixpoint spec_strip_one_newline (s : str) : str :=
  match s with
  | [] => []
  | [c] => if Ascii.eqb c nl then [] else [c]
  | c :: s' => c :: spec_strip_one_newline s'
  end.

(** * Properties *)

Example scenario_name_url :
  substitute [(lit "NAME", lit "World"); (lit "URL", lit "https://example.com")]
             (lit "Hello {{NAME}}, visit {{URL}}")
  = lit "Hello World, visit https://example.com".
Proof. reflexivity. Qed.

Example scenario_file_value :
  files (snd (main quote_repr
                [lit "render-template.py"; lit "a.tmpl"; lit "out"; lit "A=@file"]
                sample_world)) (lit "out")
  = Some (lit "line1" ++ nl :: lit "line2").
Proof. reflexivity. Qed.

Example replace_empty_old :
  str_replace (lit "abc") [] (lit "-") = lit "-a-b-c-".
Proof. reflexivity. Qed.

Example partition_first_eq :
  str_partition (lit "A=b=c") (lit "=") = (lit "A", lit "=", lit "b=c").
Proof. reflexivity. Qed.

Example rstrip_all_newlines :
  str_rstrip [ "a"%char; nl; nl ] [nl] = [ "a"%char ].
Proof. reflexivity. Qed.

Arguments str_replace : simpl never.
Arguments placeholder : simpl never.

(** ** Strings: equality, prefixes, occurrences *)

Lemma str_eqb_refl (a : str) : str_eqb a a = true.
Proof.
  induction a as [|x a IH]; simpl; [reflexivity|].
  now rewrite Ascii.eqb_refl.
Qed.

Lemma str_eqb_eq (a b : str) : str_eqb a b = true <-> a = b.
Proof.
  split.
  - revert b. induction a as [|x a IH]; intros [|y b]; simpl; try easy.
    intros H. apply andb_true_iff in H as [Hx Hr].
    apply Ascii.eqb_eq in Hx. f_equal; auto.
  - intros ->. apply str_eqb_refl.
Qed.

Lemma str_eqb_neq (a b : str) : str_eqb a b = false <-> a <> b.
Proof.
  rewrite <- str_eqb_eq. destruct (str_eqb a b); split; congruence.
Qed.

Lemma startswith_app (p r : str) : str_startswith (p ++ r) p = true.
Proof.
  induction p as [|c p IH]; simpl; [reflexivity|].
  now rewrite Ascii.eqb_refl.
Qed.

Lemma startswith_inv (s p : str) :
  str_startswith s p = true -> exists r, s = p ++ r.
Proof.
  revert s. induction p as [|c p IH]; intros s H.
  - now exists s.
  - destruct s as [|d s]; simpl in H; [discriminate|].
    apply andb_true_iff in H as [Hc Hr].
    apply Ascii.eqb_eq in Hc. subst d.
    destruct (IH _ Hr) as [r ->]. now exists r.
Qed.

Lemma skipn_prefix (p r : str) : skipn (length p) (p ++ r) = r.
Proof. induction p; simpl; auto. Qed.

Lemma occurs_here (old r : str) : occurs old (old ++ r).
Proof. now exists [], r. Qed.

Lemma occurs_nil (old : str) : occurs old [] -> old = [].
Proof.
  intros (pre & post & E). symmetry in E.
  apply app_eq_nil in E as [_ E]. now apply app_eq_nil in E as [E _].
Qed.

Lemma occurs_cons (old s : str) (c : ascii) : occurs old s -> occurs old (c :: s).
Proof. intros (pre & post & ->). now exists (c :: pre), post. Qed.

Lemma occurs_app_l (old s pre : str) : occurs old s -> occurs old (pre ++ s).
Proof.
  intros (p & q & ->). exists (pre ++ p), q. now rewrite app_assoc.
Qed.

Lemma occurs_app_r (old s post : str) : occurs old s -> occurs old (s ++ post).
Proof.
  intros (p & q & ->). exists p, (q ++ post). now rewrite <- !app_assoc.
Qed.

Lemma occurs_trans (a b s : str) : occurs a b -> occurs b s -> occurs a s.
Proof.
  intros Hab (p & q & ->). now apply occurs_app_l, occurs_app_r.
Qed.

Lemma occurs_inv (old s : str) (c : ascii) :
  occurs old (c :: s) -> str_startswith (c :: s) old = true \/ occurs old s.
Proof.
  intros ([|d pre] & post & E).
  - left. simpl in E. rewrite E. apply startswith_app.
  - right. injection E as _ ->. now exists pre, post.
Qed.

Lemma str_contains_occurs (s old : str) :
  str_contains s old = true <-> occurs old s.
Proof.
  split.
  - induction s as [|c s IH]; simpl; intros H.
    + rewrite orb_false_r in H. destruct old; [|discriminate].
      now exists [], [].
    + apply orb_true_iff in H as [H|H].
      * destruct (startswith_inv _ _ H) as [r ->]. apply occurs_here.
      * now apply occurs_cons, IH.
  - induction s as [|c s IH]; intros H.
    + apply occurs_nil in H. now subst old.
    + cbn [str_contains]. apply orb_true_iff.
      destruct (occurs_inv _ _ _ H) as [Hs|Ho]; [now left|right; now apply IH].
Qed.

Lemma not_contains_not_occurs (s old : str) :
  str_contains s old = false -> ~ occurs old s.
Proof.
  intros H Ho. apply str_contains_occurs in Ho. congruence.
Qed.

(** ** [str.replace] *)

Lemma replace_scan_fuel (old new : str) (n m : nat) (s : str) :
  old <> [] -> length s <= n -> length s <= m ->
  replace_scan n s old new = replace_scan m s old new.
Proof.
  intros Hold. revert m s.
  assert (Hnil : forall k, replace_scan k [] old new = []).
  { intros [|k]; simpl; [reflexivity|].
    destruct old; [congruence|reflexivity]. }
  induction n as [|n IH]; intros m s Hn Hm.
  - destruct s; [|simpl in Hn; lia]. now rewrite !Hnil.
  - destruct m as [|m].
    + destruct s; [|simpl in Hm; lia]. now rewrite !Hnil.
    + simpl. destruct (str_startswith s old) eqn:E.
      * f_equal. destruct (startswith_inv _ _ E) as [r ->].
        rewrite skipn_prefix. rewrite length_app in Hn, Hm.
        destruct old; [congruence|]. simpl in Hn, Hm.
        apply IH; lia.
      * destruct s as [|c s]; [reflexivity|]. f_equal.
        simpl in Hn, Hm. apply IH; lia.
Qed.

Lemma str_replace_nil (old new : str) :
  old <> [] -> str_replace [] old new = [].
Proof. destruct old; [congruence|reflexivity]. Qed.

Lemma str_replace_match (old new r : str) :
  old <> [] -> str_replace (old ++ r) old new = new ++ str_replace r old new.
Proof.
  intros Hold. unfold str_replace.
  destruct old as [|o old']; [congruence|].
  set (old := o :: old') in *.
  assert (L : length (old ++ r) = S (length old' + length r)).
  { unfold old. simpl. now rewrite length_app. }
  rewrite L. cbn [replace_scan].
  rewrite startswith_app, skipn_prefix. f_equal.
  apply replace_scan_fuel; [exact Hold|lia|lia].
Qed.

Lemma str_replace_skip (old new s : str) (c : ascii) :
  str_startswith (c :: s) old = false ->
  str_replace (c :: s) old new = c :: str_replace s old new.
Proof.
  intros H. unfold str_replace.
  destruct old as [|o old']; [discriminate|].
  cbn [length replace_scan]. now rewrite H.
Qed.

(** A text in which [old] does not occur is left alone. *)
Lemma str_replace_absent (old new s : str) :
  ~ occurs old s -> str_replace s old new = s.
Proof.
  induction s as [|c s IH]; intros H.
  - apply str_replace_nil. intros ->. apply H. now exists [], [].
  - rewrite str_replace_skip.
    + f_equal. apply IH. intros Ho. apply H. now apply occurs_cons.
    + destruct (str_startswith (c :: s) old) eqn:E; [|reflexivity].
      exfalso. apply H. destruct (startswith_inv _ _ E) as [r ->].
      apply occurs_here.
Qed.

(** Each match puts a copy of [new] into the result. *)
Lemma str_replace_inserts (old new s : str) :
  old <> [] -> occurs old s -> occurs new (str_replace s old new).
Proof.
  intros Hold. induction s as [|c s IH]; intros H.
  - apply occurs_nil in H. congruence.
  - destruct (str_startswith (c :: s) old) eqn:E.
    + destruct (startswith_inv _ _ E) as [r Er]. rewrite Er.
      rewrite str_replace_match by exact Hold. apply occurs_here.
    + rewrite (str_replace_skip _ _ _ _ E). apply occurs_cons, IH.
      destruct (occurs_inv _ _ _ H) as [Hs|Ho]; [congruence|exact Ho].
Qed.

(** ** Placeholders with brace-free names *)

Lemma placeholder_eq (key : str) :
  placeholder key = lbrace :: lbrace :: key ++ [rbrace; rbrace].
Proof. reflexivity. Qed.

Lemma placeholder_not_nil (key : str) : placeholder key <> [].
Proof. rewrite placeholder_eq. discriminate. Qed.

Lemma brace_free_spec (s : str) :
  brace_free s = true -> ~ In lbrace s /\ ~ In rbrace s.
Proof.
  unfold brace_free. rewrite forallb_forall. intros H.
  split; intros Hin; apply H in Hin; discriminate.
Qed.

Lemma no_open_brace_spec (s : str) :
  no_open_brace s = true -> ~ In lbrace s.
Proof.
  unfold no_open_brace. rewrite forallb_forall. intros H Hin.
  apply H in Hin. discriminate.
Qed.

Lemma brace_free_no_open (s : str) :
  brace_free s = true -> no_open_brace s = true.
Proof.
  unfold brace_free, no_open_brace. rewrite !forallb_forall.
  intros H c Hc. apply H in Hc. now apply andb_true_iff in Hc.
Qed.

(** Two lists that agree up to the first [a] have the same part before it. *)
Lemma same_up_to_first (a : ascii) (l1 l2 x y : str) :
  ~ In a l1 -> ~ In a l2 -> l1 ++ a :: x = l2 ++ a :: y -> l1 = l2.
Proof.
  revert l2. induction l1 as [|c l1 IH]; intros [|d l2] H1 H2 E; simpl in *.
  - reflexivity.
  - injection E as -> _. exfalso. apply H2. now left.
  - injection E as -> _. exfalso. apply H1. now left.
  - injection E as -> E. f_equal. apply IH; auto.
Qed.

(** The placeholder of [key] starts where the placeholder of [name]
    starts only if the names are the same. *)
Lemma placeholder_at_placeholder (key name post : str) :
  brace_free key = true -> brace_free name = true ->
  str_startswith (placeholder name ++ post) (placeholder key) = true ->
  name = key.
Proof.
  intros Hk Hn H.
  apply brace_free_spec in Hk as [_ Hk], Hn as [_ Hn].
  destruct (startswith_inv _ _ H) as [r E].
  rewrite !placeholder_eq in E. simpl in E.
  injection E as E. rewrite <- !app_assoc in E. simpl in E.
  now apply same_up_to_first in E.
Qed.

(** A stretch of text without an opening brace is copied as it is. *)
Lemma str_replace_no_open (key value u post : str) :
  ~ In lbrace u ->
  str_replace (u ++ post) (placeholder key) value
  = u ++ str_replace post (placeholder key) value.
Proof.
  induction u as [|c u IH]; intros Hu; [reflexivity|].
  simpl. rewrite str_replace_skip.
  - f_equal. apply IH. intros Hin. apply Hu. now right.
  - rewrite placeholder_eq. simpl.
    destruct (Ascii.eqb c lbrace) eqn:E; [|reflexivity].
    apply Ascii.eqb_eq in E. exfalso. apply Hu. now left.
Qed.

(** A match of [key]'s placeholder cannot begin before a placeholder
    token and reach into it. *)
Lemma placeholder_no_overlap (key name pre post : str) :
  brace_free key = true -> pre <> [] ->
  str_startswith (pre ++ placeholder name ++ post) (placeholder key) = true ->
  exists pre', pre = placeholder key ++ pre'.
Proof.
  intros Hk Hpre H.
  apply brace_free_spec in Hk as [Hk _].
  destruct (startswith_inv _ _ H) as [r E].
  apply app_eq_app in E as [y [[E1 E2]|[E1 E2]]].
  - now exists y.
  - destruct y as [|c y].
    + exists []. now rewrite E1, !app_nil_r.
    + exfalso. rewrite placeholder_eq in E2. simpl in E2.
      injection E2 as <- E2.
      rewrite placeholder_eq in E1.
      destruct pre as [|p0 pre]; [congruence|].
      simpl in E1. injection E1 as <- E1.
      destruct pre as [|p1 pre].
      * simpl in E1. injection E1 as E1. subst y.
        destruct key as [|k key]; simpl in E2.
        -- discriminate.
        -- injection E2 as <- _. apply Hk. now left.
      * simpl in E1. injection E1 as <- E1.
        assert (Hin : In lbrace (key ++ [rbrace; rbrace])).
        { rewrite E1. apply in_or_app. right. now left. }
        apply in_app_or in Hin as [Hin|Hin]; [now apply Hk|].
        simpl in Hin. destruct Hin as [Hin|[Hin|[]]]; discriminate.
Qed.

(** The placeholder of another name is copied as it is. *)
Lemma str_replace_other_placeholder (key value name post : str) :
  brace_free key = true -> brace_free name = true -> name <> key ->
  str_replace (placeholder name ++ post) (placeholder key) value
  = placeholder name ++ str_replace post (placeholder key) value.
Proof.
  intros Hk Hn Hne.
  assert (F0 : str_startswith (placeholder name ++ post) (placeholder key) = false).
  { destruct (str_startswith _ _) eqn:F; [|reflexivity].
    now apply placeholder_at_placeholder in F. }
  apply brace_free_spec in Hn as [Hn _].
  revert F0. rewrite (placeholder_eq name). cbn [app]. intros F0.
  rewrite (str_replace_skip _ _ _ _ F0). f_equal.
  rewrite str_replace_skip.
  - f_equal. apply str_replace_no_open.
    intros Hin. apply in_app_or in Hin as [Hin|Hin]; [now apply Hn|].
    destruct Hin as [Hin|[Hin|[]]]; discriminate.
  - rewrite placeholder_eq.
    destruct name as [|x name]; cbn; [reflexivity|].
    destruct (Ascii.eqb x lbrace) eqn:F; [|reflexivity].
    apply Ascii.eqb_eq in F. exfalso. apply Hn. now left.
Qed.

(** One pass of [str.replace] treats a placeholder token on its own:
    the text before it and the text after it are rewritten separately,
    whatever they contain. *)
Lemma str_replace_around (key value name : str) :
  brace_free key = true -> brace_free name = true ->
  forall pre post,
    str_replace (pre ++ placeholder name ++ post) (placeholder key) value
    = str_replace pre (placeholder key) value
      ++ (if str_eqb name key then value else placeholder name)
      ++ str_replace post (placeholder key) value.
Proof.
  intros Hk Hn pre.
  remember (length pre) as n eqn:Hlen. revert pre Hlen.
  induction n as [n IH] using lt_wf_ind. intros pre Hlen post.
  pose proof (placeholder_not_nil key) as Hold.
  destruct pre as [|c pre].
  - rewrite str_replace_nil by exact Hold. rewrite !app_nil_l.
    destruct (str_eqb name key) eqn:E.
    + apply str_eqb_eq in E. subst name. now apply str_replace_match.
    + apply str_eqb_neq in E.
      now apply str_replace_other_placeholder.
  - destruct (str_startswith ((c :: pre) ++ placeholder name ++ post)
                (placeholder key)) eqn:E.
    + destruct (placeholder_no_overlap key name (c :: pre) post Hk) as [pre' Epre];
        [discriminate|exact E|].
      rewrite Epre, <- app_assoc.
      rewrite !str_replace_match by exact Hold.
      rewrite <- app_assoc. f_equal.
      apply (IH (length pre')); [|reflexivity].
      rewrite Hlen, Epre, length_app, placeholder_eq. cbn [length]. lia.
    + rewrite <- app_comm_cons in E |- *.
      rewrite (str_replace_skip _ _ _ _ E).
      rewrite str_replace_skip.
      * rewrite <- app_comm_cons. f_equal.
        apply (IH (length pre)); [|reflexivity].
        rewrite Hlen. cbn [length]. lia.
      * destruct (str_startswith (c :: pre) (placeholder key)) eqn:F;
          [|reflexivity].
        destruct (startswith_inv _ _ F) as [r Er].
        rewrite app_comm_cons, Er, <- app_assoc, startswith_app in E.
        discriminate.
Qed.

(** The scan visits a text either through a match or one character at a
    time; this is the matching induction principle. *)
Lemma replace_scan_ind (old : str) (P : str -> Prop) :
  old <> [] ->
  P [] ->
  (forall r, P r -> P (old ++ r)) ->
  (forall c s, str_startswith (c :: s) old = false -> P s -> P (c :: s)) ->
  forall s, P s.
Proof.
  intros Hold Hnil Hmatch Hskip s.
  remember (length s) as n eqn:Hlen. revert s Hlen.
  induction n as [n IH] using lt_wf_ind. intros s Hlen.
  destruct s as [|c s]; [exact Hnil|].
  destruct (str_startswith (c :: s) old) eqn:E.
  - destruct (startswith_inv _ _ E) as [r Er]. rewrite Er.
    apply Hmatch. apply (IH (length r)); [|reflexivity].
    rewrite Hlen, Er, length_app. destruct old; [congruence|]. cbn [length]. lia.
  - apply Hskip; [exact E|]. apply (IH (length s)); [|reflexivity].
    rewrite Hlen. cbn [length]. lia.
Qed.

Lemma str_replace_erase_le (old s : str) :
  old <> [] -> length (str_replace s old []) <= length s.
Proof.
  intros Hold. pattern s. apply (replace_scan_ind old); [exact Hold|..];
    clear s.
  - now rewrite str_replace_nil.
  - intros r IH.
    rewrite str_replace_match by exact Hold. cbn [app]. rewrite length_app. lia.
  - intros c s E IH.
    rewrite (str_replace_skip _ _ _ _ E). cbn [length]. lia.
Qed.

(** Erasing a text that occurs makes the result shorter. *)
Lemma str_replace_erase_lt (old s : str) :
  old <> [] -> occurs old s -> length (str_replace s old []) < length s.
Proof.
  intros Hold. induction s as [|c s IH]; intros H.
  - apply occurs_nil in H. congruence.
  - destruct (str_startswith (c :: s) old) eqn:E.
    + destruct (startswith_inv _ _ E) as [r Er]. rewrite Er.
      rewrite str_replace_match by exact Hold. cbn [app].
      pose proof (str_replace_erase_le old r Hold).
      rewrite length_app. destruct old; [congruence|]. cbn [length]. lia.
    + rewrite (str_replace_skip _ _ _ _ E). cbn [length].
      destruct (occurs_inv _ _ _ H) as [Hs|Ho]; [congruence|].
      apply IH in Ho. lia.
Qed.

(** ** Templates *)

Lemma render_cons (t : token) (ts : list token) :
  render (t :: ts) = render_token t ++ render ts.
Proof. reflexivity. Qed.

(** One pass on a template fills the tokens of its key. *)
Lemma str_replace_render (key value : str) (ts : list token) :
  brace_free key = true -> forallb token_ok ts = true ->
  str_replace (render ts) (placeholder key) value
  = render (map (fill key value) ts).
Proof.
  intros Hk. induction ts as [|t ts IH]; intros Hts.
  - apply str_replace_nil, placeholder_not_nil.
  - cbn [forallb] in Hts. apply andb_true_iff in Hts as [Ht Hts].
    cbn [map]. rewrite !render_cons, <- (IH Hts).
    destruct t as [text|name]; cbn [fill render_token token_ok] in *.
    + apply str_replace_no_open. now apply no_open_brace_spec.
    + pose proof (str_replace_around key value name Hk Ht [] (render ts)) as E.
      rewrite app_nil_l in E. rewrite E.
      rewrite str_replace_nil by apply placeholder_not_nil.
      rewrite app_nil_l. now destruct (str_eqb name key).
Qed.

Lemma fill_ok (key value : str) (ts : list token) :
  no_open_brace value = true -> forallb token_ok ts = true ->
  forallb token_ok (map (fill key value) ts) = true.
Proof.
  intros Hv. rewrite !forallb_forall. intros H t Ht.
  apply in_map_iff in Ht as (t0 & <- & Ht0). apply H in Ht0.
  destruct t0 as [text|name]; cbn [fill]; [exact Ht0|].
  now destruct (str_eqb name key).
Qed.

Lemma fill_fill_all (key value : str) (items : list (str * str)) (t : token) :
  fill_all items (fill key value t) = fill_all ((key, value) :: items) t.
Proof.
  destruct t as [text|name]; cbn [fill fill_all dict_get]; [reflexivity|].
  destruct (str_eqb name key) eqn:E.
  - apply str_eqb_eq in E. subst name. now rewrite str_eqb_refl.
  - assert (F : str_eqb key name = false).
    { apply str_eqb_neq. apply str_eqb_neq in E. congruence. }
    now rewrite F.
Qed.

(** The whole loop on a template fills each placeholder token whose name
    is a key and leaves the other tokens alone. *)
Lemma substitute_render (items : list (str * str)) :
  keys_brace_free items = true -> values_no_open_brace items = true ->
  forall ts, forallb token_ok ts = true ->
    substitute items (render ts) = render (map (fill_all items) ts).
Proof.
  induction items as [|[key value] items IH]; intros Hk Hv ts Hts.
  - cbn [substitute]. f_equal. rewrite <- (map_id ts) at 1.
    apply map_ext. now intros [text|name].
  - cbn [keys_brace_free values_no_open_brace forallb fst snd] in Hk, Hv.
    apply andb_true_iff in Hk as [Hk Hks], Hv as [Hv Hvs].
    cbn [substitute]. rewrite str_replace_render by assumption.
    rewrite IH; [|assumption|assumption|now apply fill_ok].
    rewrite map_map. f_equal. apply map_ext. intros t. apply fill_fill_all.
Qed.

(** ** The dictionary *)

Lemma dict_get_In (items : list (str * str)) (k v : str) :
  dict_get items k = Some v -> In (k, v) items.
Proof.
  induction items as [|[k0 v0] items IH]; cbn [dict_get]; [discriminate|].
  destruct (str_eqb k0 k) eqn:E.
  - apply str_eqb_eq in E. intros [= ->]. subst. now left.
  - intros H. right. now apply IH.
Qed.

Lemma In_dict_get (items : list (str * str)) (k v : str) :
  NoDup (map fst items) -> In (k, v) items -> dict_get items k = Some v.
Proof.
  induction items as [|[k0 v0] items IH]; cbn [map fst dict_get];
    intros Hnd Hin; [contradiction|].
  inversion Hnd as [|? ? Hnotin Hnd']; subst.
  destruct Hin as [E|Hin].
  - injection E as -> ->. now rewrite str_eqb_refl.
  - destruct (str_eqb k0 k) eqn:E; [|now apply IH].
    apply str_eqb_eq in E. subst k0. exfalso. apply Hnotin.
    apply in_map_iff. now exists (k, v).
Qed.

Lemma dict_get_None (items : list (str * str)) (k : str) :
  dict_get items k = None <-> ~ In k (map fst items).
Proof.
  induction items as [|[k0 v0] items IH]; cbn [dict_get map fst].
  - tauto.
  - destruct (str_eqb k0 k) eqn:E.
    + apply str_eqb_eq in E. subst. split; [discriminate|].
      intros H. exfalso. apply H. now left.
    + apply str_eqb_neq in E. rewrite IH. cbn [In]. tauto.
Qed.

(** With distinct keys a lookup does not depend on the order of the
    items. *)
Lemma dict_get_Permutation (items items' : list (str * str)) (k : str) :
  NoDup (map fst items) -> Permutation items items' ->
  dict_get items k = dict_get items' k.
Proof.
  intros Hnd Hp.
  assert (Hnd' : NoDup (map fst items')).
  { eapply Permutation_NoDup; [|exact Hnd]. now apply Permutation_map. }
  destruct (dict_get items k) as [v|] eqn:E.
  - symmetry. apply In_dict_get; [exact Hnd'|].
    eapply Permutation_in; [exact Hp|]. now apply dict_get_In.
  - symmetry. apply dict_get_None. apply dict_get_None in E.
    intros Hin. apply E.
    eapply Permutation_in; [|exact Hin].
    apply Permutation_map. now apply Permutation_sym.
Qed.

(** ** Tokens in a text *)

Lemma has_token_false (s : str) :
  has_token s = false -> forall x, ~ occurs (placeholder x) s.
Proof.
  induction s as [|c s IH]; intros H x Ho.
  - apply occurs_nil in Ho. now apply placeholder_not_nil in Ho.
  - cbn [has_token] in H. apply orb_false_iff in H as [H1 H2].
    destruct (occurs_inv _ _ _ Ho) as [Hs|Ho']; [|now apply (IH H2 x)].
    destruct (startswith_inv _ _ Hs) as [r Er].
    rewrite Er, placeholder_eq in H1.
    cbn [app skipn] in H1.
    change (str_startswith (lbrace :: lbrace :: (x ++ [rbrace; rbrace]) ++ r)
              (lit "{{")) with true in H1.
    cbn [andb] in H1.
    apply not_contains_not_occurs in H1. apply H1.
    rewrite <- app_assoc.
    apply occurs_app_l. apply (occurs_here [rbrace; rbrace] r).
Qed.

(** The placeholder of [key] occurs in a rendered template only as one
    of its tokens. *)
Lemma placeholder_in_render (key : str) (ts : list token) :
  brace_free key = true -> forallb token_ok ts = true ->
  (forall t, In t ts -> t <> Ph key) ->
  ~ occurs (placeholder key) (render ts).
Proof.
  intros Hk Hts Hno Ho.
  apply (str_replace_erase_lt _ _ (placeholder_not_nil key)) in Ho.
  rewrite str_replace_render in Ho by assumption.
  assert (E : map (fill key []) ts = ts).
  { rewrite <- (map_id ts) at 2. apply map_ext_in. intros t Ht.
    destruct t as [text|name]; cbn [fill]; [reflexivity|].
    destruct (str_eqb name key) eqn:F; [|reflexivity].
    apply str_eqb_eq in F. subst name. now apply Hno in Ht. }
  rewrite E in Ho. lia.
Qed.

Lemma fill_all_ok (items : list (str * str)) (ts : list token) :
  values_no_open_brace items = true -> forallb token_ok ts = true ->
  forallb token_ok (map (fill_all items) ts) = true.
Proof.
  unfold values_no_open_brace. rewrite !forallb_forall. intros Hv H t Ht.
  apply in_map_iff in Ht as (t0 & <- & Ht0). apply H in Ht0.
  destruct t0 as [text|name]; cbn [fill_all]; [exact Ht0|].
  destruct (dict_get items name) as [v|] eqn:E; [|exact Ht0].
  apply dict_get_In in E. now apply Hv in E.
Qed.

(** The loop treats a placeholder whose name is not a key on its own. *)
Lemma substitute_around (items : list (str * str)) (name : str) :
  keys_brace_free items = true -> brace_free name = true ->
  dict_get items name = None ->
  forall pre post,
    substitute items (pre ++ placeholder name ++ post)
    = substitute items pre ++ placeholder name ++ substitute items post.
Proof.
  intros Hk Hn. induction items as [|[key value] items IH];
    intros Hget pre post; [reflexivity|].
  cbn [keys_brace_free forallb fst] in Hk.
  apply andb_true_iff in Hk as [Hk Hks].
  cbn [dict_get] in Hget.
  destruct (str_eqb key name) eqn:E; [discriminate|].
  cbn [substitute]. rewrite str_replace_around by assumption.
  assert (F : str_eqb name key = false).
  { apply str_eqb_neq. apply str_eqb_neq in E. congruence. }
  rewrite F. now apply IH.
Qed.

Lemma substitute_app (d1 d2 : list (str * str)) (html : str) :
  substitute (d1 ++ d2) html = substitute d2 (substitute d1 html).
Proof.
  revert html. induction d1 as [|[k v] d1 IH]; intros html; [reflexivity|].
  cbn [app substitute]. apply IH.
Qed.

(** A text without tokens goes through the loop unchanged. *)
Lemma substitute_no_token (items : list (str * str)) (html : str) :
  (forall x, ~ occurs (placeholder x) html) -> substitute items html = html.
Proof.
  intros H. induction items as [|[key value] items IH]; [reflexivity|].
  cbn [substitute]. rewrite str_replace_absent by apply H. exact IH.
Qed.

Lemma forallb_Permutation {A : Type} (f : A -> bool) (l l' : list A) :
  Permutation l l' -> forallb f l = true -> forallb f l' = true.
Proof.
  intros Hp. rewrite !forallb_forall. intros H x Hx. apply H.
  eapply Permutation_in; [|exact Hx]. now apply Permutation_sym.
Qed.

(** ** Claims about the substitution loop *)

(** C2, as amended: a value inserted for [key] is not scanned again by
    the pass of [key] itself nor by the passes that ran before it, so a
    placeholder [{{other}}] inside the value reaches the output verbatim
    when [other] is not a key applied after [key] (all names brace-free,
    and [key]'s placeholder present when its pass runs).  The passes of
    the keys applied after [key] do scan the inserted value: on the text
    [{{key}}] they work on the value itself. *)
Theorem C2_inserted_value_not_rescanned_by_earlier_keys
    (d1 d2 : list (str * str)) (key value other html : str) :
  brace_free other = true ->
  keys_brace_free d2 = true ->
  dict_get d2 other = None ->
  occurs (placeholder other) value ->
  occurs (placeholder key) (substitute d1 html) ->
  occurs (placeholder other) (substitute (d1 ++ (key, value) :: d2) html)
  /\ substitute ((key, value) :: d2) (placeholder key) = substitute d2 value.
Proof.
  intros Ho Hk Hget Hval Hkey. split.
  - rewrite substitute_app. cbn [substitute].
    apply (str_replace_inserts _ value _ (placeholder_not_nil key)) in Hkey.
    destruct (occurs_trans _ _ _ Hval Hkey) as (pre & post & E).
    rewrite E, substitute_around by assumption.
    apply occurs_app_l, occurs_here.
  - cbn [substitute]. f_equal.
    rewrite <- (app_nil_r (placeholder key)) at 1.
    rewrite str_replace_match by apply placeholder_not_nil.
    rewrite str_replace_nil by apply placeholder_not_nil.
    apply app_nil_r.
Qed.

Lemma C2_witness :
  occurs (placeholder (lit "B"))
    (substitute ([(lit "B", lit "x")] ++ (lit "A", lit "see {{B}}") :: [(lit "C", lit "y")])
                (lit "{{A}} {{B}} {{C}}"))
  /\ substitute ((lit "A", lit "see {{B}}") :: [(lit "C", lit "y")]) (placeholder (lit "A"))
     = substitute [(lit "C", lit "y")] (lit "see {{B}}").
Proof.
  apply (C2_inserted_value_not_rescanned_by_earlier_keys
           [(lit "B", lit "x")] [(lit "C", lit "y")]
           (lit "A") (lit "see {{B}}") (lit "B") (lit "{{A}} {{B}} {{C}}")).
  - reflexivity.
  - reflexivity.
  - reflexivity.
  - apply str_contains_occurs. reflexivity.
  - apply str_contains_occurs. reflexivity.
Defined.

(** C2 as stated fails: the value of [A] holds [{{B}}], [B] is applied
    after [A], and the output has [x] where the value had [{{B}}]. *)
Lemma C2_value_rescanned_by_later_key :
  let items := [(lit "A", lit "{{B}}"); (lit "B", lit "x")] in
  occurs (placeholder (lit "B")) (lit "{{B}}")
  /\ substitute items (lit "{{A}}") = lit "x"
  /\ ~ occurs (placeholder (lit "B")) (substitute items (lit "{{A}}")).
Proof.
  cbv zeta. split; [|split].
  - apply str_contains_occurs. reflexivity.
  - reflexivity.
  - apply not_contains_not_occurs. reflexivity.
Qed.

(** C3, as amended: on a template made of literal text without [{] and
    placeholders with brace-free names, with brace-free distinct keys and
    values without [{], the output does not depend on the order in which
    the pairs are applied. *)
Theorem C3_order_independent_on_templates
    (items items' : list (str * str)) (ts : list token) :
  NoDup (map fst items) ->
  Permutation items items' ->
  keys_brace_free items = true ->
  values_no_open_brace items = true ->
  forallb token_ok ts = true ->
  substitute items (render ts) = substitute items' (render ts).
Proof.
  intros Hnd Hp Hk Hv Hts.
  rewrite !substitute_render; try assumption.
  - f_equal. apply map_ext. intros [text|name]; cbn [fill_all]; [reflexivity|].
    now rewrite (dict_get_Permutation items items' name Hnd Hp).
  - exact (forallb_Permutation _ items items' Hp Hk).
  - exact (forallb_Permutation _ items items' Hp Hv).
Qed.

Lemma C3_witness :
  substitute [(lit "NAME", lit "World"); (lit "URL", lit "https://example.com")]
    (render [Lit (lit "Hello "); Ph (lit "NAME"); Lit (lit ", visit "); Ph (lit "URL")])
  = substitute [(lit "URL", lit "https://example.com"); (lit "NAME", lit "World")]
    (render [Lit (lit "Hello "); Ph (lit "NAME"); Lit (lit ", visit "); Ph (lit "URL")]).
Proof.
  apply C3_order_independent_on_templates.
  - repeat constructor; cbn; intuition discriminate.
  - apply perm_swap.
  - reflexivity.
  - reflexivity.
  - reflexivity.
Defined.

(** C3 as stated fails: with distinct keys [A] and [B], applying [A]
    first gives [x], applying [B] first gives [{{B}}]. *)
Lemma C3_order_matters :
  let items := [(lit "A", lit "{{B}}"); (lit "B", lit "x")] in
  let items' := [(lit "B", lit "x"); (lit "A", lit "{{B}}")] in
  NoDup (map fst items)
  /\ Permutation items items'
  /\ substitute items (lit "{{A}}") <> substitute items' (lit "{{A}}").
Proof.
  cbv zeta. split; [|split].
  - repeat constructor; cbn; intuition discriminate.
  - apply perm_swap.
  - vm_compute. discriminate.
Qed.

(** C4, as amended: on a template made of literal text without [{] and
    placeholders with brace-free names, with brace-free keys and values
    without [{], every placeholder token whose name is a key is replaced
    by the value of that key, the other tokens are kept, and no
    placeholder of a key occurs in the output. *)
Theorem C4_placeholders_of_keys_replaced_on_templates
    (items : list (str * str)) (ts : list token) :
  keys_brace_free items = true ->
  values_no_open_brace items = true ->
  forallb token_ok ts = true ->
  substitute items (render ts) = render (map (fill_all items) ts)
  /\ forall key value, In (key, value) items ->
       ~ occurs (placeholder key) (substitute items (render ts)).
Proof.
  intros Hk Hv Hts.
  pose proof (substitute_render items Hk Hv ts Hts) as E.
  split; [exact E|]. intros key value Hin. rewrite E.
  apply placeholder_in_render.
  - unfold keys_brace_free in Hk. rewrite forallb_forall in Hk.
    exact (Hk _ Hin).
  - now apply fill_all_ok.
  - intros t Ht Et. apply in_map_iff in Ht as (t0 & Et0 & _).
    rewrite Et in Et0.
    destruct t0 as [text|name]; cbn [fill_all] in Et0; [discriminate|].
    destruct (dict_get items name) as [v|] eqn:G; [discriminate|].
    injection Et0 as ->. apply dict_get_None in G. apply G.
    apply in_map_iff. now exists (key, value).
Qed.

Lemma C4_witness :
  let items := [(lit "NAME", lit "World"); (lit "URL", lit "https://example.com")] in
  let ts := [Lit (lit "Hello "); Ph (lit "NAME"); Lit (lit ", visit "); Ph (lit "URL")] in
  substitute items (render ts) = render (map (fill_all items) ts)
  /\ forall key value, In (key, value) items ->
       ~ occurs (placeholder key) (substitute items (render ts)).
Proof.
  cbv zeta. apply C4_placeholders_of_keys_replaced_on_templates; reflexivity.
Defined.

(** C4 as stated fails: [A] is a key, yet [{{A}}] occurs in the output,
    brought in by the value of [B]. *)
Lemma C4_placeholder_of_key_remains :
  let items := [(lit "A", lit "x"); (lit "B", lit "{{A}}")] in
  In (lit "A", lit "x") items
  /\ substitute items (lit "{{A}} {{B}}") = lit "x {{A}}"
  /\ occurs (placeholder (lit "A")) (substitute items (lit "{{A}} {{B}}")).
Proof.
  cbv zeta. split; [|split].
  - now left.
  - reflexivity.
  - apply str_contains_occurs. reflexivity.
Qed.

(** C6, as amended: when the keys and [name] are brace-free and [name]
    is not a key, an occurrence of [{{name}}] in the input is kept as it
    is: the output is the substitution of the text before it, then
    [{{name}}], then the substitution of the text after it. *)
Theorem C6_unknown_placeholder_preserved
    (items : list (str * str)) (name pre post : str) :
  keys_brace_free items = true ->
  brace_free name = true ->
  dict_get items name = None ->
  substitute items (pre ++ placeholder name ++ post)
  = substitute items pre ++ placeholder name ++ substitute items post.
Proof.
  intros Hk Hn Hget. now apply substitute_around.
Qed.

Lemma C6_witness :
  substitute [(lit "NAME", lit "World")]
    (lit "Hello {{NAME}}" ++ placeholder (lit "X") ++ lit ", {{NAME}}")
  = substitute [(lit "NAME", lit "World")] (lit "Hello {{NAME}}")
    ++ placeholder (lit "X")
    ++ substitute [(lit "NAME", lit "World")] (lit ", {{NAME}}").
Proof.
  apply C6_unknown_placeholder_preserved; reflexivity.
Defined.

(** C6 as stated fails: [X] is not a key and [{{X}}] is in the input,
    but the placeholder of the key [X}] covers it and the output is [v]. *)
Lemma C6_unknown_placeholder_lost :
  let items := [(lit "X}", lit "v")] in
  dict_get items (lit "X") = None
  /\ occurs (placeholder (lit "X")) (lit "{{X}}}")
  /\ substitute items (lit "{{X}}}") = lit "v"
  /\ ~ occurs (placeholder (lit "X")) (substitute items (lit "{{X}}}")).
Proof.
  cbv zeta. split; [|split; [|split]].
  - reflexivity.
  - apply str_contains_occurs. reflexivity.
  - reflexivity.
  - apply not_contains_not_occurs. reflexivity.
Qed.

(** ** Parsing one argument *)

Lemma partition_eq_spec (arg : str) :
  let '(key, sep, value) := str_partition arg (lit "=") in
  ~ In eqc key
  /\ ((sep = [eqc] /\ arg = key ++ eqc :: value)
      \/ (sep = [] /\ value = [] /\ arg = key)).
Proof.
  induction arg as [|c arg IH]; cbn [str_partition].
  - split; [now intros []|right; auto].
  - change (str_startswith (c :: arg) (lit "=")) with (Ascii.eqb c eqc && true).
    rewrite andb_true_r. destruct (Ascii.eqb c eqc) eqn:E.
    + apply Ascii.eqb_eq in E. subst c. split; [now intros []|left; auto].
    + destruct (str_partition arg (lit "=")) as [[key sep] value].
      destruct IH as [Hk IH]. split.
      * intros [Hc|Hin]; [|now apply Hk].
        subst c. rewrite Ascii.eqb_refl in E. discriminate.
      * destruct IH as [[-> ->]|[-> [-> ->]]]; [left|right]; auto.
Qed.

Lemma partition_eq_found (key value : str) :
  ~ In eqc key ->
  str_partition (key ++ eqc :: value) (lit "=") = (key, [eqc], value).
Proof.
  induction key as [|c key IH]; intros Hk; [reflexivity|].
  cbn [app str_partition].
  change (str_startswith (c :: key ++ eqc :: value) (lit "="))
    with (Ascii.eqb c eqc && true).
  rewrite andb_true_r. destruct (Ascii.eqb c eqc) eqn:E.
  - apply Ascii.eqb_eq in E. exfalso. apply Hk. now left.
  - rewrite IH; [reflexivity|]. intros Hin. apply Hk. now right.
Qed.

(** The loop rejects exactly the arguments without [=] and those that
    begin with it. *)
Lemma arg_ok_false (arg : str) :
  arg_ok arg = false <-> (~ In eqc arg \/ exists value, arg = eqc :: value).
Proof.
  unfold arg_ok. pose proof (partition_eq_spec arg) as H.
  destruct (str_partition arg (lit "=")) as [[key sep] value].
  destruct H as [Hk [[-> ->]|[-> [-> ->]]]].
  - destruct key as [|c key]; cbn.
    + split; [intros _; right; now exists value|reflexivity].
    + split; [discriminate|]. intros [H|[v Hv]].
      * exfalso. apply H. right. apply in_or_app. right. now left.
      * injection Hv as Hc _. exfalso. apply Hk. now left.
  - rewrite orb_true_r. cbn. split; [intros _; now left|reflexivity].
Qed.

(** An accepted argument splits at its first [=] into a non-empty key
    and a value. *)
Lemma arg_ok_true (arg : str) :
  arg_ok arg = true ->
  str_partition arg (lit "=") = (arg_key arg, [eqc], arg_value arg)
  /\ arg = arg_key arg ++ eqc :: arg_value arg
  /\ arg_key arg <> []
  /\ ~ In eqc (arg_key arg).
Proof.
  unfold arg_ok, arg_key, arg_value. pose proof (partition_eq_spec arg) as H.
  destruct (str_partition arg (lit "=")) as [[key sep] value].
  cbn [fst snd]. destruct H as [Hk [[-> ->]|[-> [-> ->]]]].
  - destruct key; cbn; [discriminate|]. intros _.
    repeat split; auto. discriminate.
  - rewrite orb_true_r. discriminate.
Qed.

(** ** The effects of the loop and of [main] *)

Lemma advance_nil (w : World) : advance w [] [] = w.
Proof. destruct w. unfold advance. cbn. now rewrite !app_nil_r. Qed.

Lemma advance_advance (w : World) (p1 p2 : str) (e1 e2 : list event) :
  advance (advance w p1 e1) p2 e2 = advance w (p1 ++ p2) (e1 ++ e2).
Proof. unfold advance. cbn. now rewrite !app_assoc. Qed.

Lemma resolve_value_eq (value : str) (w : World) :
  resolve_value value w =
  if str_startswith value (lit "@")
  then match files w (skipn 1 value) with
       | Some text => (inl (str_rstrip text [nl]), advance w [] [EvRead (skipn 1 value)])
       | None => (inr (Uncaught (OSError (skipn 1 value))),
                  advance w [] [EvRead (skipn 1 value)])
       end
  else (inl value, w).
Proof.
  unfold resolve_value, advance. rewrite app_nil_r.
  destruct (str_startswith value (lit "@")); [|reflexivity].
  unfold bind, read_text, ret. now destruct (files w (skipn 1 value)).
Qed.

Lemma resolve_value_files (value : str) (w1 w2 : World) :
  files w1 = files w2 ->
  fst (resolve_value value w1) = fst (resolve_value value w2).
Proof.
  intros E. rewrite !resolve_value_eq, E.
  destruct (str_startswith value (lit "@")); [|reflexivity].
  now destruct (files w2 (skipn 1 value)).
Qed.

Lemma parse_args_cons (repr : str -> str) (arg : str) (rest : list str)
    (d : dict) (w : World) :
  parse_args repr (arg :: rest) d w =
  if arg_ok arg
  then match resolve_value (arg_value arg) w with
       | (inl v, w1) => parse_args repr rest (dict_set d (arg_key arg) v) w1
       | (inr h, w1) => (inr h, w1)
       end
  else (inr (SysExit 1),
        advance w (invalid_argument_message repr arg ++ [nl]) []).
Proof.
  unfold arg_ok, arg_key, arg_value, advance. cbn [parse_args].
  destruct (str_partition arg (lit "=")) as [[key sep] value].
  cbn [fst snd]. rewrite app_nil_r.
  destruct (py_not key || py_not sep); reflexivity.
Qed.

Lemma arg_reads_app (a b : list str) :
  arg_reads (a ++ b) = arg_reads a ++ arg_reads b.
Proof. unfold arg_reads. apply flat_map_app. Qed.

Lemma arg_reads_one (arg : str) (w : World) :
  snd (resolve_value (arg_value arg) w) = advance w [] (arg_reads [arg]).
Proof.
  rewrite resolve_value_eq. unfold arg_reads. cbn [flat_map].
  rewrite app_nil_r.
  destruct (str_startswith (arg_value arg) (lit "@")).
  - now destruct (files w (skipn 1 (arg_value arg))).
  - cbn. symmetry. apply advance_nil.
Qed.


Lemma arg_reads_cons (arg : str) (args : list str) :
  arg_reads (arg :: args) = arg_reads [arg] ++ arg_reads args.
Proof. apply (arg_reads_app [arg] args). Qed.

Lemma resolve_value_halt (value : str) (w w1 : World) (h : halt) :
  resolve_value value w = (inr h, w1) ->
  str_startswith value (lit "@") = true
  /\ files w (skipn 1 value) = None
  /\ h = Uncaught (OSError (skipn 1 value)).
Proof.
  rewrite resolve_value_eq.
  destruct (str_startswith value (lit "@")); [|discriminate].
  destruct (files w (skipn 1 value)); [discriminate|].
  intros [= <- _]. auto.
Qed.

Lemma parse_args_outcome (repr : str -> str) (args : list str) :
  forall d w,
    parse_outcome repr args w (fst (parse_args repr args d w))
                              (snd (parse_args repr args d w)).
Proof.
  induction args as [|arg rest IH]; intros d w.
  - cbn. rewrite <- (advance_nil w) at 2. now constructor.
  - rewrite parse_args_cons. destruct (arg_ok arg) eqn:Hok.
    + pose proof (arg_reads_one arg w) as Hw1.
      destruct (resolve_value (arg_value arg) w) as [[v|h] w1] eqn:R;
        cbn [snd] in Hw1; subst w1.
      * specialize (IH (dict_set d (arg_key arg) v)
                       (advance w [] (arg_reads [arg]))).
        destruct (parse_args repr rest _ _) as [r w2]. cbn [fst snd] in *.
        inversion IH as [d' Hall|pre bad post -> Hpre Hbad|pre bad post -> Hpre Hat Hnone];
          subst; rewrite advance_advance, <- arg_reads_cons; cbn [app].
        -- constructor. cbn [forallb]. now rewrite Hok.
        -- apply (ParseInvalid repr (arg :: pre ++ bad :: post) w
                    (arg :: pre) bad post); auto.
           cbn [forallb]. now rewrite Hok.
        -- rewrite app_comm_cons.
           apply (ParseUnreadable repr (arg :: pre ++ bad :: post) w
                    (arg :: pre) bad post); auto.
           cbn [app forallb]. now rewrite Hok.
      * destruct (resolve_value_halt _ _ _ _ R) as (Hat & Hnone & ->).
        cbn [fst snd].
        apply (ParseUnreadable repr (arg :: rest) w [] arg rest); auto.
        cbn. now rewrite Hok.
    + cbn [fst snd].
      apply (ParseInvalid repr (arg :: rest) w [] arg rest); auto.
Qed.

Lemma arg_ok_iff (arg : str) : arg_ok arg = true <-> ~ malformed arg.
Proof.
  unfold malformed. rewrite <- arg_ok_false.
  destruct (arg_ok arg); split; congruence.
Qed.

Lemma main_usage (repr : str -> str) (prog : str) (rest : list str) (w : World) :
  length rest < 2 ->
  main repr (prog :: rest) w
  = (inr (SysExit 1), advance w (usage_message prog ++ [nl]) []).
Proof.
  intros H. unfold advance. rewrite app_nil_r.
  destruct rest as [|a [|b rest]]; [reflexivity|reflexivity|].
  cbn [length] in H. lia.
Qed.

Lemma main_run (repr : str -> str) (prog inp out : str) (args : list str)
    (w : World) :
  main repr (prog :: inp :: out :: args) w =
  match parse_args repr args [] w with
  | (inl d, w1) =>
      match read_text inp w1 with
      | (inl html, w2) => write_text out (substitute (dict_items d) html) w2
      | (inr h, w2) => (inr h, w2)
      end
  | (inr h, w1) => (inr h, w1)
  end.
Proof. reflexivity. Qed.

(** The first rejected argument stops the loop, provided the files named
    before it could be read. *)
Lemma parse_args_invalid (repr : str -> str) (pre : list str) (arg : str)
    (post : list str) :
  forallb arg_ok pre = true -> arg_ok arg = false ->
  forall d w,
    value_files_readable w pre = true ->
    parse_args repr (pre ++ arg :: post) d w
    = (inr (SysExit 1),
       advance w (invalid_argument_message repr arg ++ [nl]) (arg_reads pre)).
Proof.
  intros Hpre Hbad. induction pre as [|a pre IH]; intros d w Hread.
  - cbn [app]. rewrite parse_args_cons, Hbad. reflexivity.
  - cbn [forallb] in Hpre. apply andb_true_iff in Hpre as [Ha Hpre].
    cbn [value_files_readable forallb] in Hread.
    apply andb_true_iff in Hread as [Hra Hread].
    cbn [app]. rewrite parse_args_cons, Ha.
    pose proof (arg_reads_one a w) as Hw1.
    rewrite resolve_value_eq in Hw1 |- *.
    destruct (str_startswith (arg_value a) (lit "@")).
    + destruct (files w (skipn 1 (arg_value a))); [|discriminate].
      cbn [snd] in Hw1. rewrite Hw1, (IH Hpre) by exact Hread.
      now rewrite advance_advance, <- arg_reads_cons.
    + cbn [snd] in Hw1. rewrite (IH Hpre) by exact Hread.
      rewrite Hw1 at 1. now rewrite advance_advance, <- arg_reads_cons.
Qed.

(** ** Trailing newlines *)

Lemma str_rstrip_cons (c : ascii) (s : str) :
  str_rstrip (c :: s) [nl] =
  match str_rstrip s [nl] with
  | [] => if Ascii.eqb c nl then [] else [c]
  | r => c :: r
  end.
Proof.
  cbn [str_rstrip existsb]. now rewrite orb_false_r.
Qed.

Lemma str_rstrip_decompose (s : str) :
  exists n, s = str_rstrip s [nl] ++ repeat nl n.
Proof.
  induction s as [|c s [n IH]]; [now exists 0|].
  rewrite str_rstrip_cons. destruct (str_rstrip s [nl]) as [|a r].
  - destruct (Ascii.eqb c nl) eqn:E.
    + apply Ascii.eqb_eq in E. subst c. exists (S n). now rewrite IH at 1.
    + exists n. now rewrite IH at 1.
  - exists n. now rewrite IH at 1.
Qed.

Lemma str_rstrip_last (s u : str) (x : ascii) :
  str_rstrip s [nl] = u ++ [x] -> x <> nl.
Proof.
  revert u. induction s as [|c s IH]; intros u E.
  - now destruct u.
  - rewrite str_rstrip_cons in E. destruct (str_rstrip s [nl]) as [|a r].
    + destruct (Ascii.eqb c nl) eqn:F; [now destruct u|].
      destruct u as [|u0 [|u1 u]]; try discriminate.
      injection E as ->. intros ->. rewrite Ascii.eqb_refl in F. discriminate.
    + destruct u as [|u0 u]; [discriminate|].
      injection E as _ E. now apply (IH u).
Qed.

Lemma str_rstrip_verbatim (s : str) :
  (forall u, s <> u ++ [nl]) -> str_rstrip s [nl] = s.
Proof.
  intros H. destruct (str_rstrip_decompose s) as [[|n] E].
  - cbn in E. now rewrite app_nil_r in E.
  - exfalso. apply (H (str_rstrip s [nl] ++ repeat nl n)).
    rewrite <- app_assoc, <- repeat_cons. exact E.
Qed.

(** ** The dictionary built by the loop *)

Lemma dict_get_set_same (d : dict) (k v : str) :
  dict_get (dict_set d k v) k = Some v.
Proof.
  induction d as [|[k0 v0] d IH]; cbn [dict_set dict_get].
  - now rewrite str_eqb_refl.
  - destruct (str_eqb k0 k) eqn:E; cbn [dict_get]; now rewrite E.
Qed.

Lemma dict_get_set_other (d : dict) (k v k' : str) :
  k <> k' -> dict_get (dict_set d k v) k' = dict_get d k'.
Proof.
  intros Hne. induction d as [|[k0 v0] d IH]; cbn [dict_set dict_get].
  - apply str_eqb_neq in Hne. now rewrite Hne.
  - destruct (str_eqb k0 k) eqn:E; cbn [dict_get].
    + apply str_eqb_eq in E. subst k0.
      apply str_eqb_neq in Hne. now rewrite Hne.
    + now rewrite IH.
Qed.

Lemma dict_set_keys (d : dict) (k v : str) :
  map fst (dict_set d k v)
  = match dict_get d k with
    | Some _ => map fst d
    | None => map fst d ++ [k]
    end.
Proof.
  induction d as [|[k0 v0] d IH]; cbn [dict_set dict_get map fst app];
    [reflexivity|].
  destruct (str_eqb k0 k) eqn:E; [reflexivity|].
  cbn [map fst]. rewrite IH. now destruct (dict_get d k).
Qed.

Lemma dict_set_NoDup (d : dict) (k v : str) :
  NoDup (map fst d) -> NoDup (map fst (dict_set d k v)).
Proof.
  intros H. rewrite dict_set_keys. destruct (dict_get d k) eqn:E; [exact H|].
  apply dict_get_None in E.
  apply NoDup_app; [exact H|repeat constructor; now intros []|].
  intros x Hx [<-|[]]. now apply E.
Qed.

(** What the loop leaves in the dictionary. *)
Lemma parse_args_dict (repr : str -> str) (args : list str) :
  forall d0 w d,
    fst (parse_args repr args d0 w) = inl d ->
    (NoDup (map fst d0) -> NoDup (map fst d))
    /\ (forall k, (forall a, In a args -> arg_key a <> k) ->
                  dict_get d k = dict_get d0 k)
    /\ (forall pre arg post,
          args = pre ++ arg :: post ->
          (forall a, In a post -> arg_key a <> arg_key arg) ->
          exists v, fst (resolve_value (arg_value arg) w) = inl v
                    /\ dict_get d (arg_key arg) = Some v).
Proof.
  induction args as [|a rest IH]; intros d0 w d H.
  - cbn in H. injection H as <-. repeat split; auto.
    intros [|? ?] ? ? E; discriminate.
  - rewrite parse_args_cons in H. destruct (arg_ok a); [|discriminate].
    pose proof (arg_reads_one a w) as Hw1.
    destruct (resolve_value (arg_value a) w) as [[v|h] w1] eqn:R;
      [|discriminate].
    cbn [snd] in Hw1.
    destruct (IH _ _ _ H) as (Hnd & Hother & Hlast).
    split; [|split].
    + intros H0. now apply Hnd, dict_set_NoDup.
    + intros k Hk. rewrite Hother.
      * apply dict_get_set_other. apply Hk. now left.
      * intros b Hb. apply Hk. now right.
    + intros [|b pre] arg post E Hpost; injection E as -> ->.
      * exists v. rewrite R. split; [reflexivity|].
        rewrite Hother by exact Hpost. apply dict_get_set_same.
      * destruct (Hlast pre arg post eq_refl Hpost) as (v' & Hv' & Hget).
        exists v'. split; [|exact Hget].
        rewrite <- Hv'. apply resolve_value_files. now rewrite Hw1.
Qed.

(** ** Reading what a path holds *)

Lemma files_encodable (w : World) (path text : str) :
  files w path = Some text -> encodable text = true.
Proof.
  unfold files. destruct (raw_files w path) as [t|]; [|discriminate].
  destruct (encodable t) eqn:E; [|discriminate]. now intros [= <-].
Qed.

(** The path just written reads as the data, the others as before. *)
Lemma files_after_write (w : World) (path data : str) (wr : str -> bool)
    (printed : str) (events : list event) (p : str) :
  encodable data = true ->
  files (mkWorld (fun q => if str_eqb q path then Some data else files w q)
                 wr printed events) p
  = if str_eqb p path then Some data else files w p.
Proof.
  intros He. unfold files at 1. cbn [raw_files].
  destruct (str_eqb p path); [now rewrite He|].
  destruct (files w p) as [t|] eqn:E; [|reflexivity].
  now rewrite (files_encodable w p t E).
Qed.

(** ** Runs of [main] *)

(** A run that ends normally parsed every argument, read the input and
    wrote the substituted text. *)
Lemma main_success (repr : str -> str) (prog inp out : str) (args : list str)
    (w : World) :
  fst (main repr (prog :: inp :: out :: args) w) = inl tt ->
  exists d html,
    fst (parse_args repr args [] w) = inl d
    /\ files w inp = Some html
    /\ writable w out = true
    /\ encodable (substitute (dict_items d) html) = true
    /\ snd (main repr (prog :: inp :: out :: args) w)
       = mkWorld (fun p => if str_eqb p out
                           then Some (substitute (dict_items d) html)
                           else files w p)
                 (writable w) (stderr w)
                 (log w ++ arg_reads args
                    ++ [EvRead inp; EvWrite out (substitute (dict_items d) html)]).
Proof.
  rewrite main_run. pose proof (parse_args_outcome repr args [] w) as Hp.
  destruct (parse_args repr args [] w) as [[d|h] w1]; cbn [fst snd] in *;
    [|discriminate].
  inversion Hp as [d' Hall| |]; subst.
  unfold read_text.
  change (files (advance w [] (arg_reads args)) inp) with (files w inp).
  destruct (files w inp) as [html|]; [|discriminate].
  unfold write_text, advance. cbn [writable stderr log raw_files].
  destruct (writable w out) eqn:Hw; [|discriminate].
  destruct (encodable (substitute (dict_items d) html)) eqn:He; [|discriminate].
  intros _. exists d, html. cbn [fst snd].
  repeat split; [exact He|].
  rewrite app_nil_r, <- !app_assoc. reflexivity.
Qed.

(** C1, as amended: for an argument [KEY=@path] the value stored for
    [KEY] is the text of the file with all its trailing newlines removed:
    the text is that value followed by newlines only, the value does not
    end in a newline, and a text without a trailing newline is used
    verbatim. *)
Theorem C1_file_value_without_trailing_newlines
    (repr : str -> str) (key path text : str) (rest : list str)
    (d : dict) (w : World) :
  key <> [] ->
  ~ In eqc key ->
  files w path = Some text ->
  parse_args repr ((key ++ lit "=" ++ lit "@" ++ path) :: rest) d w
  = parse_args repr rest (dict_set d key (str_rstrip text [nl]))
                    (advance w [] [EvRead path])
  /\ (exists n, text = str_rstrip text [nl] ++ repeat nl n)
  /\ (forall u, str_rstrip text [nl] <> u ++ [nl])
  /\ ((forall u, text <> u ++ [nl]) -> str_rstrip text [nl] = text).
Proof.
  intros Hne Hk Hfile. split; [|split; [|split]].
  - rewrite parse_args_cons. unfold arg_ok, arg_key, arg_value.
    change (key ++ lit "=" ++ lit "@" ++ path)
      with (key ++ eqc :: lit "@" ++ path).
    rewrite (partition_eq_found key (lit "@" ++ path) Hk). cbn [fst snd].
    destruct key as [|c key]; [congruence|]. cbn [py_not orb negb].
    rewrite resolve_value_eq.
    change (str_startswith (lit "@" ++ path) (lit "@")) with true.
    cbn iota. change (skipn 1 (lit "@" ++ path)) with path.
    now rewrite Hfile.
  - apply str_rstrip_decompose.
  - intros u E. now apply str_rstrip_last in E.
  - apply str_rstrip_verbatim.
Qed.

Lemma C1_witness :
  parse_args quote_repr
    ((lit "A" ++ lit "=" ++ lit "@" ++ lit "two-newlines") :: []) [] sample_world
  = parse_args quote_repr [] (dict_set [] (lit "A") (str_rstrip (lit "a" ++ [nl; nl]) [nl]))
               (advance sample_world [] [EvRead (lit "two-newlines")])
  /\ (exists n, lit "a" ++ [nl; nl] = str_rstrip (lit "a" ++ [nl; nl]) [nl] ++ repeat nl n)
  /\ (forall u, str_rstrip (lit "a" ++ [nl; nl]) [nl] <> u ++ [nl])
  /\ ((forall u, lit "a" ++ [nl; nl] <> u ++ [nl])
      -> str_rstrip (lit "a" ++ [nl; nl]) [nl] = lit "a" ++ [nl; nl]).
Proof.
  apply (C1_file_value_without_trailing_newlines
           quote_repr (lit "A") (lit "two-newlines") (lit "a" ++ [nl; nl])
           [] [] sample_world).
  - discriminate.
  - cbn. intuition discriminate.
  - reflexivity.
Defined.

(** C1 as stated fails: the file ends in two newlines, the spec's
    reading keeps one of them, the script keeps none. *)
Lemma C1_two_trailing_newlines_both_stripped :
  files sample_world (lit "two-newlines") = Some (lit "a" ++ [nl; nl])
  /\ fst (resolve_value (lit "@two-newlines") sample_world) = inl (lit "a")
  /\ spec_strip_one_newline (lit "a" ++ [nl; nl]) = lit "a" ++ [nl]
  /\ fst (resolve_value (lit "@two-newlines") sample_world)
     <> inl (spec_strip_one_newline (lit "a" ++ [nl; nl])).
Proof.
  repeat split; try reflexivity. vm_compute. discriminate.
Qed.

(** C5: when the input text holds no substring of the form [{{...}}],
    the loop leaves it as it is for every replacement set, and a run
    that ends normally writes exactly the input text to the output. *)
Theorem C5_text_without_tokens_unchanged (html : str) :
  (forall x, ~ occurs (placeholder x) html) ->
  (forall items, substitute items html = html)
  /\ forall repr prog inp out args w,
       files w inp = Some html ->
       fst (main repr (prog :: inp :: out :: args) w) = inl tt ->
       files (snd (main repr (prog :: inp :: out :: args) w)) out = Some html
       /\ In (EvWrite out html)
             (log (snd (main repr (prog :: inp :: out :: args) w))).
Proof.
  intros H. split; [intros items; now apply substitute_no_token|].
  intros repr prog inp out args w Hfile Hrun.
  destruct (main_success _ _ _ _ _ _ Hrun)
    as (d & html' & _ & Hf & _ & He & ->).
  rewrite Hfile in Hf. injection Hf as <-.
  rewrite (substitute_no_token _ _ H) in He |- *. split.
  - rewrite files_after_write by exact He. now rewrite str_eqb_refl.
  - cbn [log]. rewrite app_assoc. apply in_or_app. right. right. now left.
Qed.

Lemma C5_witness :
  (forall items, substitute items (lit "no tokens here") = lit "no tokens here")
  /\ forall repr prog inp out args w,
       files w inp = Some (lit "no tokens here") ->
       fst (main repr (prog :: inp :: out :: args) w) = inl tt ->
       files (snd (main repr (prog :: inp :: out :: args) w)) out
       = Some (lit "no tokens here")
       /\ In (EvWrite out (lit "no tokens here"))
             (log (snd (main repr (prog :: inp :: out :: args) w))).
Proof.
  apply (C5_text_without_tokens_unchanged (lit "no tokens here")).
  apply has_token_false. reflexivity.
Defined.

Example C5_run :
  fst (main quote_repr
         [lit "render-template.py"; lit "plain.txt"; lit "out.txt"; lit "NAME=World"]
         sample_world) = inl tt
  /\ files (snd (main quote_repr
         [lit "render-template.py"; lit "plain.txt"; lit "out.txt"; lit "NAME=World"]
         sample_world)) (lit "out.txt") = Some (lit "no tokens here").
Proof. split; reflexivity. Qed.

(** C7: when a key is given by several trailing arguments, the
    dictionary holds one pair for it, with the resolved value of its last
    argument, and the text written is the substitution with the pairs of
    that dictionary. *)
Theorem C7_last_occurrence_wins
    (repr : str -> str) (prog inp out : str) (args : list str) (w : World) :
  fst (main repr (prog :: inp :: out :: args) w) = inl tt ->
  exists d html,
    fst (parse_args repr args [] w) = inl d
    /\ files w inp = Some html
    /\ In (EvWrite out (substitute (dict_items d) html))
          (log (snd (main repr (prog :: inp :: out :: args) w)))
    /\ NoDup (map fst (dict_items d))
    /\ forall pre arg post,
         args = pre ++ arg :: post ->
         (forall a, In a post -> arg_key a <> arg_key arg) ->
         exists v, fst (resolve_value (arg_value arg) w) = inl v
                   /\ In (arg_key arg, v) (dict_items d).
Proof.
  intros Hrun.
  destruct (main_success _ _ _ _ _ _ Hrun)
    as (d & html & Hd & Hf & _ & _ & ->).
  exists d, html.
  destruct (parse_args_dict repr args [] w d Hd) as (Hnd & _ & Hlast).
  repeat split; auto.
  - cbn [log]. rewrite app_assoc. apply in_or_app. right. right. now left.
  - apply Hnd. constructor.
  - intros pre arg post E Hpost.
    destruct (Hlast pre arg post E Hpost) as (v & Hv & Hget).
    exists v. split; [exact Hv|]. now apply dict_get_In.
Qed.

Lemma C7_witness :
  exists d html,
    fst (parse_args quote_repr [lit "NAME=first"; lit "NAME=last"] [] sample_world) = inl d
    /\ files sample_world (lit "in.html") = Some html
    /\ In (EvWrite (lit "out.html") (substitute (dict_items d) html))
          (log (snd (main quote_repr
                       (lit "render-template.py" :: lit "in.html" :: lit "out.html"
                          :: [lit "NAME=first"; lit "NAME=last"]) sample_world)))
    /\ NoDup (map fst (dict_items d))
    /\ forall pre arg post,
         [lit "NAME=first"; lit "NAME=last"] = pre ++ arg :: post ->
         (forall a, In a post -> arg_key a <> arg_key arg) ->
         exists v, fst (resolve_value (arg_value arg) sample_world) = inl v
                   /\ In (arg_key arg, v) (dict_items d).
Proof.
  apply (C7_last_occurrence_wins quote_repr (lit "render-template.py")
           (lit "in.html") (lit "out.html")
           [lit "NAME=first"; lit "NAME=last"] sample_world).
  reflexivity.
Defined.

Example C7_run :
  files (snd (main quote_repr
                [lit "render-template.py"; lit "in.html"; lit "out.html";
                 lit "NAME=first"; lit "NAME=last"] sample_world))
        (lit "out.html")
  = Some (lit "Hello last").
Proof. reflexivity. Qed.

(** C8: with fewer than two positional arguments the script prints the
    usage message to the error stream and exits with status 1, touching
    no file; with exactly the two paths and no further argument, a
    readable input and a writable output, it ends normally having written
    the input text unchanged to the output. *)
Theorem C8_usage_error_and_plain_copy
    (repr : str -> str) (prog : str) (args : list str) (w : World) :
  (length args < 2 ->
   main repr (prog :: args) w
   = (inr (SysExit 1), advance w (usage_message prog ++ [nl]) [])
   /\ exit_status (fst (main repr (prog :: args) w)) = 1%Z)
  /\ (forall inp out html,
        args = [inp; out] ->
        files w inp = Some html ->
        writable w out = true ->
        main repr (prog :: args) w
        = (inl tt,
           mkWorld (fun p => if str_eqb p out then Some html else files w p)
                   (writable w) (stderr w)
                   (log w ++ [EvRead inp; EvWrite out html]))
        /\ exit_status (fst (main repr (prog :: args) w)) = 0%Z).
Proof.
  split.
  - intros H. rewrite (main_usage repr prog args w H). now split.
  - intros inp out html -> Hf Hw.
    assert (E : main repr [prog; inp; out] w
                = (inl tt,
                   mkWorld (fun p => if str_eqb p out then Some html else files w p)
                           (writable w) (stderr w)
                           (log w ++ [EvRead inp; EvWrite out html]))).
    { rewrite main_run. cbn [parse_args ret].
      unfold read_text, write_text. rewrite Hf.
      cbn [writable stderr log raw_files substitute dict_items].
      rewrite Hw, (files_encodable w inp html Hf).
      rewrite <- app_assoc. reflexivity. }
    rewrite E. now split.
Qed.

Lemma C8_witness :
  (main quote_repr [lit "render-template.py"; lit "in.html"] sample_world
   = (inr (SysExit 1),
      advance sample_world (usage_message (lit "render-template.py") ++ [nl]) [])
   /\ exit_status (fst (main quote_repr [lit "render-template.py"; lit "in.html"]
                          sample_world)) = 1%Z)
  /\ (main quote_repr [lit "render-template.py"; lit "in.html"; lit "out.html"]
        sample_world
      = (inl tt,
         mkWorld (fun p => if str_eqb p (lit "out.html")
                           then Some (lit "Hello {{NAME}}")
                           else files sample_world p)
                 (writable sample_world) (stderr sample_world)
                 (log sample_world
                    ++ [EvRead (lit "in.html");
                        EvWrite (lit "out.html") (lit "Hello {{NAME}}")]))
      /\ exit_status (fst (main quote_repr
                             [lit "render-template.py"; lit "in.html"; lit "out.html"]
                             sample_world)) = 0%Z).
Proof.
  split.
  - apply (C8_usage_error_and_plain_copy quote_repr (lit "render-template.py")
             [lit "in.html"] sample_world).
    cbn. lia.
  - apply (C8_usage_error_and_plain_copy quote_repr (lit "render-template.py")
             [lit "in.html"; lit "out.html"] sample_world);
      reflexivity.
Defined.

Example C8_usage_text :
  stderr (snd (main quote_repr [lit "render-template.py"] sample_world))
  = lit "Usage: render-template.py INPUT OUTPUT KEY=value ..." ++ [nl].
Proof. reflexivity. Qed.

(** C9, as amended: when a trailing argument has no [=] or nothing
    before its first [=], the arguments before it are well-formed and the
    [@] files they name can be read, the script prints the
    invalid-argument message with the [repr] of that argument to the
    error stream and exits with status 1, having read only those files.
    Every argument that is not of that kind splits at its first [=] into
    a non-empty key and a value. *)
Theorem C9_first_malformed_argument_reported
    (repr : str -> str) (prog inp out : str) (pre : list str) (arg : str)
    (post : list str) (w : World) :
  malformed arg ->
  (forall a, In a pre -> ~ malformed a) ->
  value_files_readable w pre = true ->
  main repr (prog :: inp :: out :: pre ++ arg :: post) w
  = (inr (SysExit 1),
     advance w (invalid_argument_message repr arg ++ [nl]) (arg_reads pre))
  /\ exit_status (fst (main repr (prog :: inp :: out :: pre ++ arg :: post) w)) = 1%Z
  /\ forall a, ~ malformed a ->
       str_partition a (lit "=") = (arg_key a, [eqc], arg_value a)
       /\ a = arg_key a ++ eqc :: arg_value a
       /\ arg_key a <> []
       /\ ~ In eqc (arg_key a).
Proof.
  intros Hbad Hpre Hread.
  assert (E : main repr (prog :: inp :: out :: pre ++ arg :: post) w
              = (inr (SysExit 1),
                 advance w (invalid_argument_message repr arg ++ [nl])
                         (arg_reads pre))).
  { rewrite main_run, parse_args_invalid; try assumption.
    - reflexivity.
    - apply forallb_forall. intros a Ha. now apply arg_ok_iff, Hpre.
    - now apply arg_ok_false. }
  rewrite E. repeat split; try (apply arg_ok_true; now apply arg_ok_iff).
Qed.

Lemma C9_witness :
  main quote_repr
    (lit "render-template.py" :: lit "in.html" :: lit "out.html"
       :: [lit "NAME=World"] ++ lit "FOO" :: [lit "=bar"]) sample_world
  = (inr (SysExit 1),
     advance sample_world
       (invalid_argument_message quote_repr (lit "FOO") ++ [nl])
       (arg_reads [lit "NAME=World"]))
  /\ exit_status
       (fst (main quote_repr
               (lit "render-template.py" :: lit "in.html" :: lit "out.html"
                  :: [lit "NAME=World"] ++ lit "FOO" :: [lit "=bar"])
               sample_world)) = 1%Z
  /\ forall a, ~ malformed a ->
       str_partition a (lit "=") = (arg_key a, [eqc], arg_value a)
       /\ a = arg_key a ++ eqc :: arg_value a
       /\ arg_key a <> []
       /\ ~ In eqc (arg_key a).
Proof.
  apply (C9_first_malformed_argument_reported quote_repr
           (lit "render-template.py") (lit "in.html") (lit "out.html")
           [lit "NAME=World"] (lit "FOO") [lit "=bar"] sample_world).
  - apply arg_ok_false. reflexivity.
  - intros a [<-|[]]. apply arg_ok_iff. reflexivity.
  - reflexivity.
Defined.

Example C9_empty_key :
  main quote_repr [lit "render-template.py"; lit "in.html"; lit "out.html"; lit "=bar"]
       sample_world
  = (inr (SysExit 1),
     advance sample_world (lit "Invalid argument: '=bar' (expected KEY=value)" ++ [nl]) []).
Proof. reflexivity. Qed.

(** C9 as stated fails: [FOO] has no [=], but the file named by the
    argument before it cannot be read; the run ends in the uncaught
    error of that read and the script prints no invalid-argument
    message. *)
Lemma C9_unreadable_file_before_malformed_argument :
  let argv := [lit "render-template.py"; lit "in.html"; lit "out.html";
               lit "A=@missing"; lit "FOO"] in
  malformed (lit "FOO")
  /\ fst (main quote_repr argv sample_world)
     = inr (Uncaught (OSError (lit "missing")))
  /\ stderr (snd (main quote_repr argv sample_world)) = []
  /\ fst (main quote_repr argv sample_world) <> inr (SysExit 1).
Proof.
  cbv zeta. split; [|split; [|split]].
  - apply arg_ok_false. reflexivity.
  - reflexivity.
  - reflexivity.
  - vm_compute. discriminate.
Qed.




Example C10_run_invalid :
  let r := main quote_repr
             [lit "render-template.py"; lit "in.html"; lit "out.html";
              lit "A=@two-newlines"; lit "FOO"] sample_world in
  fst r = inr (SysExit 1)
  /\ log (snd r) = [EvRead (lit "two-newlines")]
  /\ files (snd r) (lit "out.html") = None.
Proof. repeat split. Qed.

(** * Further properties of [main] *)

(** ** When the loop over the arguments succeeds *)

Lemma parse_args_succeeds (repr : str -> str) (args : list str) :
  forall d0 w,
    forallb arg_ok args = true ->
    value_files_readable w args = true ->
    exists d,
      parse_args repr args d0 w = (inl d, advance w [] (arg_reads args)).
Proof.
  induction args as [|a rest IH]; intros d0 w Hok Hread.
  - exists d0. cbn. now rewrite advance_nil.
  - cbn [forallb] in Hok. apply andb_true_iff in Hok as [Ha Hok].
    cbn [value_files_readable forallb] in Hread.
    apply andb_true_iff in Hread as [Hra Hread].
    rewrite parse_args_cons, Ha, resolve_value_eq, arg_reads_cons.
    unfold arg_reads at 1. cbn [flat_map]. rewrite app_nil_r.
    destruct (str_startswith (arg_value a) (lit "@")).
    + destruct (files w (skipn 1 (arg_value a))) as [text|]; [|discriminate].
      destruct (IH (dict_set d0 (arg_key a) (str_rstrip text [nl]))
                   (advance w [] [EvRead (skipn 1 (arg_value a))]) Hok Hread)
        as [d Hd].
      exists d. rewrite Hd. now rewrite advance_advance.
    + destruct (IH (dict_set d0 (arg_key a) (arg_value a)) w Hok Hread)
        as [d Hd].
      exists d. exact Hd.
Qed.

Lemma parse_args_success_inv (repr : str -> str) (args : list str) :
  forall d0 w d,
    fst (parse_args repr args d0 w) = inl d ->
    forallb arg_ok args = true /\ value_files_readable w args = true.
Proof.
  induction args as [|a rest IH]; intros d0 w d H; [now split|].
  rewrite parse_args_cons in H. destruct (arg_ok a) eqn:Ha; [|discriminate].
  rewrite resolve_value_eq in H.
  cbn [forallb value_files_readable]. rewrite Ha.
  fold (value_files_readable w rest).
  destruct (str_startswith (arg_value a) (lit "@")).
  - destruct (files w (skipn 1 (arg_value a))) as [text|]; [|discriminate].
    apply IH in H as [H1 H2]. now split.
  - apply IH in H as [H1 H2]. now split.
Qed.

Lemma arg_reads_single (arg : str) :
  arg_reads [arg]
  = if str_startswith (arg_value arg) (lit "@")
    then [EvRead (skipn 1 (arg_value arg))]
    else [].
Proof. unfold arg_reads. cbn [flat_map]. apply app_nil_r. Qed.

(** Once every argument is accepted and every [@] file is readable, the
    rest of the run depends on the input, the output path and the
    substituted text only. *)
Lemma main_after_parse (repr : str -> str) (prog inp out : str)
    (args : list str) (w : World) :
  forallb arg_ok args = true ->
  value_files_readable w args = true ->
  exists d,
    fst (parse_args repr args [] w) = inl d
    /\ main repr (prog :: inp :: out :: args) w =
       match files w inp with
       | None =>
           (inr (Uncaught (OSError inp)),
            advance w [] (arg_reads args ++ [EvRead inp]))
       | Some html =>
           let text := substitute (dict_items d) html in
           let events := arg_reads args ++ [EvRead inp; EvWrite out text] in
           if writable w out
           then if encodable text
                then (inl tt,
                      mkWorld (fun p => if str_eqb p out then Some text else files w p)
                              (writable w) (stderr w) (log w ++ events))
                else (inr (Uncaught UnicodeEncodeError),
                      mkWorld (fun p => if str_eqb p out then Some [] else files w p)
                              (writable w) (stderr w) (log w ++ events))
           else (inr (Uncaught (OSError out)), advance w [] events)
       end.
Proof.
  intros Hok Hread.
  destruct (parse_args_succeeds repr args [] w Hok Hread) as [d Hd].
  exists d. rewrite main_run, Hd. split; [reflexivity|].
  unfold read_text.
  change (files (advance w [] (arg_reads args)) inp) with (files w inp).
  destruct (files w inp) as [html|].
  - unfold write_text, advance. cbv zeta. cbn [writable stderr log raw_files].
    destruct (writable w out);
      [destruct (encodable (substitute (dict_items d) html))|];
      rewrite ?app_nil_r, <- ?app_assoc; reflexivity.
  - unfold advance. cbn [writable stderr log raw_files].
    now rewrite <- !app_assoc.
Qed.


(** X2: whatever happens, a run changes no file other than the output
    path, leaves the write permissions alone, and only adds to what was
    printed and to what was attempted before. *)
Theorem X2_only_the_output_path_changes
    (repr : str -> str) (argv : list str) (w : World) :
  let w' := snd (main repr argv w) in
  writable w' = writable w
  /\ (forall p, p <> nth 2 argv [] -> files w' p = files w p)
  /\ (exists events, log w' = log w ++ events)
  /\ (exists printed, stderr w' = stderr w ++ printed).
Proof.
  cbv zeta.
  assert (Hadv : forall printed events,
             writable (advance w printed events) = writable w
             /\ (forall p, p <> nth 2 argv [] ->
                           files (advance w printed events) p = files w p)
             /\ (exists ev, log (advance w printed events) = log w ++ ev)
             /\ (exists pr, stderr (advance w printed events) = stderr w ++ pr)).
  { intros printed events. unfold advance. cbn [writable log stderr].
    repeat split; eauto. }
  assert (Hwrite : forall data events,
             encodable data = true ->
             let w' := mkWorld (fun p => if str_eqb p (nth 2 argv [])
                                         then Some data else files w p)
                               (writable w) (stderr w) (log w ++ events) in
             writable w' = writable w
             /\ (forall p, p <> nth 2 argv [] -> files w' p = files w p)
             /\ (exists ev, log w' = log w ++ ev)
             /\ (exists pr, stderr w' = stderr w ++ pr)).
  { intros data events He. cbv zeta. cbn [writable log stderr].
    repeat split; eauto.
    - intros p Hne. rewrite files_after_write by exact He.
      apply str_eqb_neq in Hne. now rewrite Hne.
    - exists []. now rewrite app_nil_r. }
  destruct argv as [|prog [|inp [|out args]]].
  - replace (main repr [] w)
      with (@inr unit halt (Uncaught IndexError), advance w [] [])
      by now rewrite advance_nil.
    apply Hadv.
  - rewrite main_usage by (cbn; lia). apply Hadv.
  - rewrite main_usage by (cbn; lia). apply Hadv.
  - pose proof (parse_args_outcome repr args [] w) as Hp.
    pose proof (parse_args_success_inv repr args [] w) as Hinv.
    pose proof (main_run repr prog inp out args w) as Erun.
    destruct (parse_args repr args [] w) as [[d|h] w1]; cbn [fst snd] in *.
    + destruct (Hinv d eq_refl) as [Hok Hread].
      destruct (main_after_parse repr prog inp out args w Hok Hread)
        as (d' & _ & ->).
      cbn [nth] in Hwrite.
      destruct (files w inp) as [html|]; [|apply Hadv].
      cbv zeta. destruct (writable w out); [|apply Hadv].
      destruct (encodable (substitute (dict_items d') html)) eqn:He.
      * now apply Hwrite.
      * now apply Hwrite.
    + rewrite Erun. inversion Hp; subst; apply Hadv.
Qed.

(** X3: the script prints only when it stops with [sys.exit], always
    with status 1, and then exactly one line: the usage line when fewer
    than two paths were given, otherwise the invalid-argument line of a
    malformed trailing argument. *)
Theorem X3_one_message_only_on_sys_exit
    (repr : str -> str) (argv : list str) (w : World) :
  match main repr argv w with
  | (inl _, w') => stderr w' = stderr w
  | (inr (Uncaught _), w') => stderr w' = stderr w
  | (inr (SysExit code), w') =>
      code = 1%Z
      /\ ((length argv < 3
           /\ stderr w' = stderr w ++ usage_message (nth 0 argv []) ++ [nl])
          \/ (exists arg,
                In arg (skipn 3 argv)
                /\ malformed arg
                /\ stderr w' = stderr w ++ invalid_argument_message repr arg ++ [nl]))
  end.
Proof.
  destruct argv as [|prog [|inp [|out args]]].
  - reflexivity.
  - rewrite main_usage by (cbn; lia). split; [reflexivity|]. left.
    split; [cbn; lia|reflexivity].
  - rewrite main_usage by (cbn; lia). split; [reflexivity|]. left.
    split; [cbn; lia|reflexivity].
  - cbn [skipn].
    pose proof (parse_args_outcome repr args [] w) as Hp.
    pose proof (parse_args_success_inv repr args [] w) as Hinv.
    pose proof (main_run repr prog inp out args w) as Erun.
    destruct (parse_args repr args [] w) as [[d|h] w1]; cbn [fst snd] in *.
    + destruct (Hinv d eq_refl) as [Hok Hread].
      destruct (main_after_parse repr prog inp out args w Hok Hread)
        as (d' & _ & ->).
      destruct (files w inp) as [html|]; [|apply app_nil_r].
      cbv zeta. destruct (writable w out); [|apply app_nil_r].
      now destruct (encodable (substitute (dict_items d') html)).
    + rewrite Erun.
      inversion Hp as [|pre bad post E Hpre Hbad|pre bad post E Hpre Hat Hnone];
        subst.
      * split; [reflexivity|]. right. exists bad. repeat split.
        -- apply in_or_app. right. now left.
        -- now apply arg_ok_false.
      * cbn. apply app_nil_r.
Qed.

(** X4: when a well-formed trailing argument names an [@] file that
    cannot be read, and the arguments before it are well-formed with
    readable files, the run ends in the uncaught error of that read:
    nothing is printed, the input is not read, the output is not written,
    whatever the arguments after it are. *)
Theorem X4_unreadable_value_file
    (repr : str -> str) (prog inp out : str) (pre : list str) (arg : str)
    (post : list str) (w : World) :
  forallb arg_ok pre = true ->
  value_files_readable w pre = true ->
  arg_ok arg = true ->
  str_startswith (arg_value arg) (lit "@") = true ->
  files w (skipn 1 (arg_value arg)) = None ->
  main repr (prog :: inp :: out :: pre ++ arg :: post) w
  = (inr (Uncaught (OSError (skipn 1 (arg_value arg)))),
     advance w [] (arg_reads (pre ++ [arg]))).
Proof.
  intros Hpre Hread Hok Hat Hnone. rewrite main_run.
  assert (E : forall d w0,
             files w0 = files w ->
             value_files_readable w0 pre = true ->
             parse_args repr (pre ++ arg :: post) d w0
             = (inr (Uncaught (OSError (skipn 1 (arg_value arg)))),
                advance w0 [] (arg_reads (pre ++ [arg])))).
  { clear Hread. induction pre as [|a pre IH]; intros d w0 Hf Hread.
    - cbn [app]. rewrite parse_args_cons, Hok, resolve_value_eq, Hat, Hf, Hnone.
      unfold arg_reads. cbn [flat_map]. now rewrite Hat, app_nil_r.
    - cbn [forallb] in Hpre. apply andb_true_iff in Hpre as [Ha Hpre].
      cbn [value_files_readable forallb] in Hread.
      apply andb_true_iff in Hread as [Hra Hread].
      cbn [app]. rewrite parse_args_cons, Ha, resolve_value_eq.
      rewrite (arg_reads_cons a), arg_reads_single.
      destruct (str_startswith (arg_value a) (lit "@")).
      + destruct (files w0 (skipn 1 (arg_value a))); [|discriminate].
        rewrite (IH Hpre) by assumption. now rewrite advance_advance.
      + now rewrite (IH Hpre) by assumption. }
  now rewrite (E [] w eq_refl Hread).
Qed.

Lemma X4_witness :
  main quote_repr
    (lit "render-template.py" :: lit "in.html" :: lit "out.html"
       :: [lit "NAME=World"] ++ lit "A=@missing" :: [lit "FOO"]) sample_world
  = (inr (Uncaught (OSError (skipn 1 (arg_value (lit "A=@missing"))))),
     advance sample_world [] (arg_reads ([lit "NAME=World"] ++ [lit "A=@missing"]))).
Proof.
  apply (X4_unreadable_value_file quote_repr (lit "render-template.py")
           (lit "in.html") (lit "out.html")
           [lit "NAME=World"] (lit "A=@missing") [lit "FOO"] sample_world);
    reflexivity.
Defined.

(** X5: with well-formed arguments and readable [@] files, an input that
    cannot be read ends the run in the uncaught error of that read, after
    the [@] files were read; nothing is printed and the output is not
    opened. *)
Theorem X5_unreadable_input
    (repr : str -> str) (prog inp out : str) (args : list str) (w : World) :
  forallb arg_ok args = true ->
  value_files_readable w args = true ->
  files w inp = None ->
  main repr (prog :: inp :: out :: args) w
  = (inr (Uncaught (OSError inp)),
     advance w [] (arg_reads args ++ [EvRead inp])).
Proof.
  intros Hok Hread Hin.
  destruct (main_after_parse repr prog inp out args w Hok Hread) as (d & _ & ->).
  now rewrite Hin.
Qed.

Lemma X5_witness :
  main quote_repr
    (lit "render-template.py" :: lit "missing.html" :: lit "out.html"
       :: [lit "A=@file"]) sample_world
  = (inr (Uncaught (OSError (lit "missing.html"))),
     advance sample_world [] (arg_reads [lit "A=@file"] ++ [EvRead (lit "missing.html")])).
Proof.
  apply (X5_unreadable_input quote_repr (lit "render-template.py")
           (lit "missing.html") (lit "out.html") [lit "A=@file"] sample_world);
    reflexivity.
Defined.

(** X6: with well-formed arguments, readable [@] files and a readable
    input, an output path that cannot be written ends the run in the
    uncaught error of the write, attempted with the fully substituted
    text; no file is changed and nothing is printed. *)
Theorem X6_unwritable_output
    (repr : str -> str) (prog inp out html : str) (args : list str) (w : World) :
  forallb arg_ok args = true ->
  value_files_readable w args = true ->
  files w inp = Some html ->
  writable w out = false ->
  exists d,
    fst (parse_args repr args [] w) = inl d
    /\ main repr (prog :: inp :: out :: args) w
       = (inr (Uncaught (OSError out)),
          advance w [] (arg_reads args
                          ++ [EvRead inp;
                              EvWrite out (substitute (dict_items d) html)])).
Proof.
  intros Hok Hread Hin Hw.
  destruct (main_after_parse repr prog inp out args w Hok Hread) as (d & Hd & ->).
  exists d. split; [exact Hd|]. rewrite Hin. cbv zeta. now rewrite Hw.
Qed.

Lemma X6_witness :
  exists d,
    fst (parse_args quote_repr [lit "NAME=World"] [] read_only_world) = inl d
    /\ main quote_repr
         (lit "render-template.py" :: lit "in.html" :: lit "out.html"
            :: [lit "NAME=World"]) read_only_world
       = (inr (Uncaught (OSError (lit "out.html"))),
          advance read_only_world []
            (arg_reads [lit "NAME=World"]
               ++ [EvRead (lit "in.html");
                   EvWrite (lit "out.html")
                     (substitute (dict_items d) (lit "Hello {{NAME}}"))])).
Proof.
  apply (X6_unwritable_output quote_repr (lit "render-template.py")
           (lit "in.html") (lit "out.html") (lit "Hello {{NAME}}")
           [lit "NAME=World"] read_only_world);
    reflexivity.
Defined.

(** ** Literal values and the order of the keys *)

(** X7: for an argument [KEY=value] whose value does not start with [@]
    (KEY non-empty, without [=]), the value is stored as it is, further
    [=] signs and the empty value included, and no file is read. *)
Theorem X7_literal_value_verbatim
    (repr : str -> str) (key value : str) (rest : list str)
    (d : dict) (w : World) :
  key <> [] ->
  ~ In eqc key ->
  str_startswith value (lit "@") = false ->
  parse_args repr ((key ++ lit "=" ++ value) :: rest) d w
  = parse_args repr rest (dict_set d key value) w.
Proof.
  intros Hne Hk Hat.
  rewrite parse_args_cons. unfold arg_ok, arg_key, arg_value.
  change (key ++ lit "=" ++ value) with (key ++ eqc :: value).
  rewrite (partition_eq_found key value Hk). cbn [fst snd].
  destruct key as [|c key]; [congruence|]. cbn [py_not orb negb].
  now rewrite resolve_value_eq, Hat.
Qed.

Lemma X7_witness :
  parse_args quote_repr ((lit "URL" ++ lit "=" ++ lit "https://e.org/?a=b") :: [])
             [] sample_world
  = parse_args quote_repr [] (dict_set [] (lit "URL") (lit "https://e.org/?a=b"))
               sample_world.
Proof.
  apply (X7_literal_value_verbatim quote_repr (lit "URL")
           (lit "https://e.org/?a=b") [] [] sample_world).
  - discriminate.
  - cbn. intuition discriminate.
  - reflexivity.
Defined.

Lemma existsb_keys (d : dict) (k : str) :
  existsb (fun x => str_eqb x k) (map fst d)
  = match dict_get d k with
    | Some _ => true
    | None => false
    end.
Proof.
  induction d as [|[k0 v0] d IH]; cbn [map fst existsb dict_get];
    [reflexivity|].
  now destruct (str_eqb k0 k).
Qed.

Lemma parse_args_keys (repr : str -> str) (args : list str) :
  forall d0 w d,
    fst (parse_args repr args d0 w) = inl d ->
    map fst d
    = map fst d0 ++ first_occurrences (map fst d0) (map arg_key args).
Proof.
  induction args as [|a rest IH]; intros d0 w d H.
  - cbn in H. injection H as <-. cbn. now rewrite app_nil_r.
  - rewrite parse_args_cons in H. destruct (arg_ok a); [|discriminate].
    destruct (resolve_value (arg_value a) w) as [[v|h] w1]; [|discriminate].
    apply IH in H. rewrite H, dict_set_keys.
    cbn [map first_occurrences]. rewrite existsb_keys.
    destruct (dict_get d0 (arg_key a)); [reflexivity|].
    now rewrite <- app_assoc.
Qed.

(** X8: after a run that ends normally, the pairs of the dictionary,
    which the substitution applies in this order, have the keys of the
    trailing arguments in the order of their first occurrence; repeating
    a key does not move it. *)
Theorem X8_keys_in_order_of_first_occurrence
    (repr : str -> str) (prog inp out : str) (args : list str) (w : World) :
  fst (main repr (prog :: inp :: out :: args) w) = inl tt ->
  exists d html,
    fst (parse_args repr args [] w) = inl d
    /\ files w inp = Some html
    /\ files (snd (main repr (prog :: inp :: out :: args) w)) out
       = Some (substitute (dict_items d) html)
    /\ map fst (dict_items d) = first_occurrences [] (map arg_key args).
Proof.
  intros Hrun.
  destruct (main_success _ _ _ _ _ _ Hrun)
    as (d & html & Hd & Hf & _ & He & ->).
  exists d, html. repeat split; auto.
  - rewrite files_after_write by exact He. now rewrite str_eqb_refl.
  - unfold dict_items. now rewrite (parse_args_keys repr args [] w d Hd).
Qed.

Lemma X8_witness :
  exists d html,
    fst (parse_args quote_repr [lit "B=1"; lit "NAME=x"; lit "B=2"] [] sample_world)
    = inl d
    /\ files sample_world (lit "in.html") = Some html
    /\ files (snd (main quote_repr
                     (lit "render-template.py" :: lit "in.html" :: lit "out.html"
                        :: [lit "B=1"; lit "NAME=x"; lit "B=2"]) sample_world))
             (lit "out.html")
       = Some (substitute (dict_items d) html)
    /\ map fst (dict_items d)
       = first_occurrences [] (map arg_key [lit "B=1"; lit "NAME=x"; lit "B=2"]).
Proof.
  apply (X8_keys_in_order_of_first_occurrence quote_repr
           (lit "render-template.py") (lit "in.html") (lit "out.html")
           [lit "B=1"; lit "NAME=x"; lit "B=2"] sample_world).
  reflexivity.
Defined.

Example first_occurrences_example :
  first_occurrences [] (map arg_key [lit "B=1"; lit "NAME=x"; lit "B=2"])
  = [lit "B"; lit "NAME"].
Proof. reflexivity. Qed.

(** ** More on the substitution loop *)

(** X9: pairs whose placeholder does not occur in the input text leave
    it unchanged, whatever other [{{...}}] tokens the text holds. *)
Theorem X9_unused_keys_change_nothing
    (items : list (str * str)) (html : str) :
  (forall key value, In (key, value) items -> ~ occurs (placeholder key) html) ->
  substitute items html = html.
Proof.
  induction items as [|[key value] items IH]; intros H; [reflexivity|].
  cbn [substitute]. rewrite str_replace_absent.
  - apply IH. intros k v Hin. apply (H k v). now right.
  - apply (H key value). now left.
Qed.

Lemma X9_witness :
  substitute [(lit "NAME", lit "World"); (lit "URL", lit "x")]
             (lit "Hello {{name}} and {{ NAME }}")
  = lit "Hello {{name}} and {{ NAME }}".
Proof.
  apply X9_unused_keys_change_nothing.
  intros key value [E|[E|[]]]; injection E as <- _;
    apply not_contains_not_occurs; reflexivity.
Defined.

Lemma fill_all_idempotent (items : list (str * str)) (t : token) :
  fill_all items (fill_all items t) = fill_all items t.
Proof.
  destruct t as [text|name]; cbn [fill_all]; [reflexivity|].
  destruct (dict_get items name) eqn:E; cbn [fill_all]; [reflexivity|].
  now rewrite E.
Qed.

(** X10: on a template made of literal text without [{] and
    placeholders with brace-free names, with brace-free keys and values
    without [{], substituting the output again with the same pairs
    changes nothing. *)
Theorem X10_substitute_idempotent_on_templates
    (items : list (str * str)) (ts : list token) :
  keys_brace_free items = true ->
  values_no_open_brace items = true ->
  forallb token_ok ts = true ->
  substitute items (substitute items (render ts))
  = substitute items (render ts).
Proof.
  intros Hk Hv Hts.
  rewrite (substitute_render items Hk Hv ts Hts).
  rewrite (substitute_render items Hk Hv) by now apply fill_all_ok.
  rewrite map_map. f_equal. apply map_ext. intros t.
  apply fill_all_idempotent.
Qed.

Lemma X10_witness :
  let items := [(lit "NAME", lit "World"); (lit "URL", lit "https://example.com")] in
  let ts := [Lit (lit "Hello "); Ph (lit "NAME"); Lit (lit ", see "); Ph (lit "X")] in
  substitute items (substitute items (render ts)) = substitute items (render ts).
Proof.
  cbv zeta. apply X10_substitute_idempotent_on_templates; reflexivity.
Defined.

(** X11: in the pass of a brace-free key, an occurrence of its
    placeholder is replaced by the value whatever the text around it and
    whatever the value holds: the result is the pass on the text before
    it, then the value as it is, then the pass on the text after it. *)
Theorem X11_pass_replaces_each_occurrence
    (key value pre post : str) :
  brace_free key = true ->
  str_replace (pre ++ placeholder key ++ post) (placeholder key) value
  = str_replace pre (placeholder key) value
    ++ value
    ++ str_replace post (placeholder key) value.
Proof.
  intros Hk.
  rewrite (str_replace_around key value key Hk Hk pre post).
  now rewrite str_eqb_refl.
Qed.

Lemma X11_witness :
  str_replace (lit "a {{K}}" ++ placeholder (lit "K") ++ lit "{{K}} b")
              (placeholder (lit "K")) (lit "<{{K}}>")
  = str_replace (lit "a {{K}}") (placeholder (lit "K")) (lit "<{{K}}>")
    ++ lit "<{{K}}>"
    ++ str_replace (lit "{{K}} b") (placeholder (lit "K")) (lit "<{{K}}>").
Proof.
  apply X11_pass_replaces_each_occurrence. reflexivity.
Defined.

(** ** Rendering in two runs *)


Lemma dict_get_app_none (d0 d : dict) (k : str) :
  dict_get (d0 ++ d) k = None -> dict_get d0 k = None.
Proof.
  induction d0 as [|[k0 v0] d0 IH]; cbn [dict_get app]; [reflexivity|].
  now destruct (str_eqb k0 k).
Qed.







Example two_runs_output :
  files (snd (main quote_repr
                [lit "render-template.py"; lit "in.html"; lit "out.html";
                 lit "NAME={{WHO}}!"; lit "WHO=World"] sample_world))
        (lit "out.html")
  = Some (lit "Hello World!").
Proof. reflexivity. Qed.

(** ** Rendering a file in place *)


